(** * Bitrix24 client wrapper: a shallow embedding of [bitrix24/bitrix24.py]

    The Python class [Bitrix24] is embedded as Rocq functions over a tree of
    Python values.  Mutable objects are handled by explicit state passing:
    the client instance and the record of everything sent to the outside
    world travel in a [state]; a function that mutates one of its arguments
    in place returns the contents of that argument after the call.  Values
    are trees: the lists under two keys of a map are two objects.  The
    external collaborators (the HTTP transport [post], the JSON decoder
    [loads], the form encoder [urlencode] of [multidimensional_urlencode])
    are parameters of the development. *)

From Stdlib Require Import String Ascii ZArith List Bool Lia Arith.
From Stdlib Require Import Permutation Sorted OrdersEx DecimalString.
From Stdlib Require Import RelationClasses.
Import ListNotations.

Local Open Scope list_scope.
Local Open Scope string_scope.
Set Warnings "-register-all".

(** ** Python values *)

(** The value tree that [json.loads] produces and that callers pass as
    parameters: [None], booleans, integers, strings, lists and dicts.  A dict
    is an association list in insertion order (Python dicts iterate in
    insertion order); its keys are strings, as in JSON objects and in the
    request-id maps of this program.  A well-formed dict has no repeated
    key, see [dict_wf].  Numbers are integers: the program never looks
    inside a number. *)
Inductive value : Type :=
| VNone
| VBool (b : bool)
| VInt (z : Z)
| VStr (s : string)
| VList (l : list value)
| VDict (d : list (string * value)).

Definition dict : Type := list (string * value).
Bind Scope list_scope with dict.

(** Exceptions that the code raises itself or lets through. *)
Inductive exn : Type :=
| Exception (msg : string)
| TypeError
| KeyError (k : value)
| IndexError
| AttributeError
| ValueError
| ReadTimeout
| ConnectionError
| OtherError (name : string).

(** Outcome of running a piece of code: a returned value, a raised
    exception, or [Diverge] when the recursion budget of [call] is used up
    (the Python code recurses without bound). *)
Inductive res (A : Type) : Type :=
| Ret (a : A)
| Raise (e : exn)
| Diverge.

Arguments Ret {A} a.
Arguments Raise {A} e.
Arguments Diverge {A}.

Definition bind {A B : Type} (m : res A) (k : A -> res B) : res B :=
  match m with
  | Ret a => k a
  | Raise e => Raise e
  | Diverge => Diverge
  end.

Declare Scope py_scope.
Delimit Scope py_scope with py.
Notation "x <- m ;; k" := (bind m (fun x => k))
  (at level 61, m at next level, right associativity) : py_scope.
Local Open Scope py_scope.

(** ** Dict primitives *)

(** [d[k]] on a dict, as an option. *)
Fixpoint lookup {V : Type} (k : string) (d : list (string * V)) : option V :=
  match d with
  | [] => None
  | (k', v) :: d' => if String.eqb k k' then Some v else lookup k d'
  end.

(** [k in d] *)
Definition has_key {V : Type} (k : string) (d : list (string * V)) : bool :=
  match lookup k d with Some _ => true | None => false end.

(** [d[k] = v]: an existing key keeps its position, a new key goes last. *)
Fixpoint dict_set {V : Type} (d : list (string * V)) (k : string) (v : V)
  : list (string * V) :=
  match d with
  | [] => [(k, v)]
  | (k', v') :: d' =>
      if String.eqb k k' then (k', v) :: d' else (k', v') :: dict_set d' k v
  end.

(** [d.keys()] *)
Definition keys {V : Type} (d : list (string * V)) : list string := map fst d.

Definition dict_wf {V : Type} (d : list (string * V)) : Prop := NoDup (keys d).

(** [dict_wf], decided. *)
Fixpoint distinct (l : list string) : bool :=
  match l with
  | [] => true
  | a :: l' => negb (existsb (String.eqb a) l') && distinct l'
  end.

(** [z = x.copy(); z.update(y)] on two dicts. *)
Definition dict_update (x y : dict) : dict :=
  fold_left (fun z kv => dict_set z (fst kv) (snd kv)) y x.

(** ** [sorted] on strings *)

(** Python compares strings by code point, which on UTF-8 bytes is the
    lexicographic order of the bytes. *)
Definition str_le (a b : string) : bool :=
  match String_as_OT.compare a b with
  | Gt => false
  | _ => true
  end.

Fixpoint insert_sorted (a : string) (l : list string) : list string :=
  match l with
  | [] => [a]
  | b :: l' => if str_le a b then a :: l else b :: insert_sorted a l'
  end.

(** [sorted(l)]; the keys of a dict are pairwise distinct, so any correct
    sort returns the same list. *)
Fixpoint sorted (l : list string) : list string :=
  match l with
  | [] => []
  | a :: l' => insert_sorted a (sorted l')
  end.

(** ** Generic operations on values *)

(** Truth value of an object, as tested by [if x]. *)
Definition truthy (v : value) : bool :=
  match v with
  | VNone => false
  | VBool b => b
  | VInt z => negb (Z.eqb z 0)
  | VStr s => negb (String.eqb s "")
  | VList l => match l with [] => false | _ => true end
  | VDict d => match d with [] => false | _ => true end
  end.

(** [v == s] for a string literal [s]. *)
Definition eq_str (v : value) (s : string) : bool :=
  match v with
  | VStr t => String.eqb t s
  | _ => false
  end.

(** [isinstance(v, str)] *)
Definition is_str (v : value) : bool :=
  match v with VStr _ => true | _ => false end.

(** [t in s] on two strings: substring test. *)
Definition is_substring (t s : string) : bool :=
  match String.index 0 t s with Some _ => true | None => false end.

(** [s in v] for a string [s]: key test on a dict, element test on a list,
    substring test on a string, [TypeError] on anything else. *)
Definition contains_str (s : string) (v : value) : res bool :=
  match v with
  | VDict d => Ret (has_key s d)
  | VList l => Ret (existsb (fun x => eq_str x s) l)
  | VStr t => Ret (is_substring s t)
  | _ => Raise TypeError
  end.

(** [l[i]] on a sequence of length [length l], with Python's negative
    indices. *)
Definition seq_index {A : Type} (l : list A) (i : Z) : res A :=
  let n := Z.of_nat (length l) in
  let j := if Z.ltb i 0 then (i + n)%Z else i in
  if Z.ltb j 0 then Raise IndexError
  else match nth_error l (Z.to_nat j) with
       | Some x => Ret x
       | None => Raise IndexError
       end.

Fixpoint chars (s : string) : list string :=
  match s with
  | EmptyString => []
  | String c s' => String c EmptyString :: chars s'
  end.

(** [v[k]] *)
Definition getitem (v k : value) : res value :=
  match v with
  | VDict d =>
      match k with
      | VStr s => match lookup s d with
                  | Some x => Ret x
                  | None => Raise (KeyError k)
                  end
      | VList _ | VDict _ => Raise TypeError
      | _ => Raise (KeyError k)
      end
  | VList l =>
      match k with
      | VInt i => seq_index l i
      | VBool b => seq_index l (if b then 1%Z else 0%Z)
      | _ => Raise TypeError
      end
  | VStr s =>
      match k with
      | VInt i => x <- seq_index (chars s) i ;; Ret (VStr x)
      | VBool b => x <- seq_index (chars s) (if b then 1%Z else 0%Z) ;; Ret (VStr x)
      | _ => Raise TypeError
      end
  | _ => Raise TypeError
  end.

(** [len(v)] *)
Definition len (v : value) : res nat :=
  match v with
  | VDict d => Ret (length d)
  | VList l => Ret (length l)
  | VStr s => Ret (String.length s)
  | _ => Raise TypeError
  end.

(** The items that [for i in v] runs through. *)
Definition iter (v : value) : res (list value) :=
  match v with
  | VDict d => Ret (map VStr (keys d))
  | VList l => Ret l
  | VStr s => Ret (map VStr (chars s))
  | _ => Raise TypeError
  end.

(** [a + b] where [b] is a string. *)
Definition add_str (a : value) (b : string) : res string :=
  match a with
  | VStr s => Ret (s ++ b)
  | _ => Raise TypeError
  end.

(** ['%d' % z] *)
Definition fmt_d (z : Z) : string := NilEmpty.string_of_int (Z.to_int z).

(** ** The client instance and the outside world *)

(** Instance attributes set by [__init__]. The two tokens are overwritten by
    [refresh_tokens] with whatever the OAuth response holds, so they are
    values; the other attributes are never written after construction. *)
Record client : Type := Client {
  domain : string;
  auth_token : value;
  refresh_token : value;
  client_id : string;
  client_secret : string;
  webhook_key : string;
  webhook_user : Z;
}.

(** The two ways the code invokes [requests.post]. *)
Inductive request : Type :=
| PostData (url : string) (data : string) (timeout : Z)
| PostParams (url : string) (params : dict).

(** What the program does to the outside world, in order. *)
Inductive event : Type :=
| Sent (r : request)
| Printed (s : string)
| Slept (secs : Z)
| Logged (v : value).

(** What [requests.post] does: a response with its [text], or an exception. *)
Inductive reply : Type :=
| Response (text : string)
| Fails (e : exn).

Record state : Type := State {
  self : client;
  trace : list event;
}.

Definition record (st : state) (e : event) : state :=
  State (self st) (trace st ++ [e])%list.

Definition set_auth_token (st : state) (v : value) : state :=
  let c := self st in
  State (Client (domain c) v (refresh_token c) (client_id c) (client_secret c)
                (webhook_key c) (webhook_user c)) (trace st).

Definition set_refresh_token (st : state) (v : value) : state :=
  let c := self st in
  State (Client (domain c) (auth_token c) v (client_id c) (client_secret c)
                (webhook_key c) (webhook_user c)) (trace st).

(** The transport invocations recorded in a trace. *)
Definition is_sent (e : event) : bool :=
  match e with Sent _ => true | _ => false end.

Definition posts (t : list event) : list event := filter is_sent t.

(** Class attributes. *)
Definition api_url (domain method : string) : string :=
  "https://" ++ domain ++ "/rest/" ++ method ++ ".json".

Definition webhook_url (domain : string) (user : Z) (key method : string)
  : string :=
  "https://" ++ domain ++ ".bitrix24.ru/rest/" ++ fmt_d user ++ "/" ++ key
    ++ "/" ++ method.

Definition oauth_url : string := "https://oauth.bitrix.info/oauth/token/".

Definition timeout : Z := 60.

(** [adapters.DEFAULT_RETRIES] *)
Definition DEFAULT_RETRIES : Z := 10.

(** [dict(error=msg)] *)
Definition error_dict (msg : string) : value := VDict [("error", VStr msg)].

(** ** Reference collaborators

    Concrete instances of the three collaborators, used to run the model on
    concrete inputs. *)

(** A form encoder in the manner of [multidimensional_urlencode]: nested
    mappings are flattened into bracketed key paths; no percent-escaping. *)
Definition str_of (v : value) : string :=
  match v with
  | VNone => "None"
  | VBool true => "True"
  | VBool false => "False"
  | VInt z => fmt_d z
  | VStr s => s
  | _ => ""
  end.

Fixpoint flatten (name : string) (v : value) : list string :=
  match v with
  | VDict d =>
      (fix rows (d : list (string * value)) : list string :=
         match d with
         | [] => []
         | (k, x) :: d' => (flatten (name ++ "[" ++ k ++ "]") x ++ rows d')%list
         end) d
  | VList l => map (fun x => name ++ "[]=" ++ str_of x) l
  | _ => [name ++ "=" ++ str_of v]
  end.

Definition plain_urlencode (v : value) : res string :=
  match v with
  | VDict d =>
      Ret (String.concat "&" (flat_map (fun kv => flatten (fst kv) (snd kv)) d))
  | _ => Raise TypeError
  end.

(** A decoder given by a table from response texts to decoded values; a
    text outside the table is not valid JSON. *)
Definition table_loads (table : list (string * value)) (text : string)
  : option value :=
  lookup text table.

(** A transport that answers the n-th request with the n-th reply of a
    script, and cannot connect once the script is over. *)
Definition scripted_post (script : list reply) (t : list event) (r : request)
  : reply :=
  nth (length (posts t)) script (Fails ConnectionError).

(** Request-ids ["a"], ["aa"], ["aaa"], ... and a command map over the first
    [n] of them, every command being [[method, {}]]. *)
Fixpoint ident (n : nat) : string :=
  match n with
  | O => "a"
  | S m => String "a" (ident m)
  end.

Definition commands (n : nat) (method : string) : dict :=
  map (fun i => (ident i, VList [VStr method; VDict []])) (seq 0 n).

(** A client in OAuth mode, and decoded responses by name: two batch
    responses, an expired-token error, two token responses and an array. *)
Definition demo_client : client :=
  Client "portal.example" (VStr "old-access") (VStr "old-refresh") "app"
         "secret" "" 1.

Definition demo_state : state := State demo_client [].

Definition demo_table : list (string * value) :=
  [("chunk-1",
    VDict [("result",
            VDict [("result", VDict [("k", VInt 1)]);
                   ("result_error", VList []);
                   ("result_total", VList []);
                   ("result_next", VList [])])]);
   ("chunk-2",
    VDict [("result",
            VDict [("result", VDict [("k", VInt 2); ("j", VInt 3)]);
                   ("result_error", VDict [("a", VStr "bad")]);
                   ("result_total", VList []);
                   ("result_next", VList [])])]);
   ("expired", VDict [("error", VStr "expired_token")]);
   ("tokens",
    VDict [("access_token", VStr "new-access");
           ("refresh_token", VStr "new-refresh")]);
   ("access-only", VDict [("access_token", VStr "new-access")]);
   ("array", VList []);
   ("done", VDict [("result", VBool true)])].

(** A transport that gives the same reply to every request, and further
    decoded responses by name: a rate-limit error, a plain error, a batch
    response with a sub-map that the accumulator does not know. *)
Definition constant_post (r : reply) (t : list event) (q : request) : reply :=
  r.

Definition more_table : list (string * value) :=
  [("limit", VDict [("error", VStr "QUERY_LIMIT_EXCEEDED")]);
   ("denied", VDict [("error", VStr "ACCESS_DENIED")]);
   ("timed",
    VDict [("result",
            VDict [("result", VDict [("k", VInt 1)]);
                   ("result_time", VDict [("k", VInt 7)])])]);
   ("done", VDict [("result", VBool true)]);
   ("tokens",
    VDict [("access_token", VStr "new-access");
           ("refresh_token", VStr "new-refresh")])].

(** ** The class [Bitrix24] *)

Section Bitrix24.

(** [multidimensional_urlencode.urlencode], [json.loads] ([None] when it
    raises [ValueError]) and [requests.post], which sees what was sent
    before. *)
Variable urlencode : value -> res string.
Variable loads : string -> option value.
Variable post : list event -> request -> reply.

(** A proof depends on the collaborators that its statement mentions
    only: where [tauto] or [intuition] would pick up one of the others
    from the context, the proof clears it first. *)
Set Default Proof Using "Type".

(** [get_url(self, method)] *)
Definition get_url (c : client) (method : string) : string :=
  if negb (String.eqb (webhook_key c) "")
  then webhook_url (domain c) (webhook_user c) (webhook_key c) method
  else api_url (domain c) method.

(** The inner loop of [prepare_batch]:
    [for i in params[call_id]: temp += urlencode(i) + '&'] *)
Fixpoint encode_each (l : list value) (temp : string) : res string :=
  match l with
  | [] => Ret temp
  | i :: l' => u <- urlencode i ;; encode_each l' (temp ++ u ++ "&")
  end.

(** The outer loop of [prepare_batch] over [sorted(params.keys())].
    [params] is the argument, whose lists are mutated by [pop(0)]; the
    function returns its contents when the loop stops, together with the
    outcome. *)
Fixpoint prepare_loop (ids : list string) (params batched_params : dict)
  : dict * res dict :=
  match ids with
  | [] => (params, Ret batched_params)
  | call_id :: ids' =>
      match lookup call_id params with
      | None => (params, Raise (KeyError (VStr call_id)))
      | Some (VList l) =>
          match l with
          | [] => (params, Raise IndexError)
          | method :: rest =>
              let params := dict_set params call_id (VList rest) in
              if eq_str method "batch"
              then (params,
                    Raise (Exception "Batch call cannot contain batch methods"))
              else
                match encode_each rest "" with
                | Ret temp =>
                    match add_str method "?" with
                    | Ret m =>
                        prepare_loop ids' params
                          (dict_set batched_params call_id (VStr (m ++ temp)))
                    | Raise e => (params, Raise e)
                    | Diverge => (params, Diverge)
                    end
                | Raise e => (params, Raise e)
                | Diverge => (params, Diverge)
                end
          end
      | Some _ =>
          (params, Raise (Exception "Invalid 'cmd' method description"))
      end
  end.

(** [prepare_batch(params)]: the argument after the call and the outcome. *)
Definition prepare_batch (params : value) : value * res dict :=
  match params with
  | VDict d =>
      let (d', r) := prepare_loop (sorted (keys d)) d [] in (VDict d', r)
  | _ => (params, Raise (Exception "Invalid 'cmd' structure"))
  end.

(** The loop of [encode_cmd] over [sorted(cmd.keys())]. *)
Fixpoint encode_loop (ids : list string) (cmd : dict) (cmd_encoded : string)
  : res string :=
  match ids with
  | [] => Ret cmd_encoded
  | i :: ids' =>
      match lookup i cmd with
      | None => Raise (KeyError (VStr i))
      | Some v =>
          u <- urlencode (VDict [("cmd", VDict [(i, v)])]) ;;
          encode_loop ids' cmd (cmd_encoded ++ u ++ "&")
      end
  end.

(** [encode_cmd(cmd)]; only a dict has [keys()]. *)
Definition encode_cmd (cmd : value) : res string :=
  match cmd with
  | VDict d => encode_loop (sorted (keys d)) d ""
  | _ => Raise AttributeError
  end.

(** [dict(error='Error on decode oauth response [%s]' % r.text)] *)
Definition oauth_failure (text : string) : value :=
  error_dict ("Error on decode oauth response [" ++ text ++ "]").

(** The handler [except (ValueError, KeyError)] of [refresh_tokens], where
    [text] is [r.text] of the response. *)
Definition oauth_handler (text : string) (e : exn) : res value :=
  match e with
  | ValueError | KeyError _ => Ret (oauth_failure text)
  | _ => Raise e
  end.

(** [refresh_tokens(self)] *)
Definition refresh_tokens (st : state) : res value * state :=
  let c := self st in
  let req :=
    PostParams oauth_url
      [("grant_type", VStr "refresh_token");
       ("client_id", VStr (client_id c));
       ("client_secret", VStr (client_secret c));
       ("refresh_token", refresh_token c)] in
  let st1 := record st (Sent req) in
  match post (trace st) req with
  | Fails e =>
      (* [r] is still [{}]: the handler's [r.text] has no such attribute *)
      match e with
      | ValueError | KeyError _ => (Raise AttributeError, st1)
      | _ => (Raise e, st1)
      end
  | Response text =>
      match loads text with
      | None => (oauth_handler text ValueError, st1)
      | Some result =>
          match getitem result (VStr "access_token") with
          | Ret a =>
              let st2 := set_auth_token st1 a in
              match getitem result (VStr "refresh_token") with
              | Ret r =>
                  let st3 := set_refresh_token st2 r in
                  (Ret (VBool true),
                   record st3 (Logged (VList [VStr "Tokens"; a; r])))
              | Raise e => (oauth_handler text e, st2)
              | Diverge => (Diverge, st2)
              end
          | Raise e => (oauth_handler text e, st1)
          | Diverge => (Diverge, st1)
          end
      end
  end.

(** [get_tokens(self)] *)
Definition get_tokens (c : client) : value :=
  VDict [("auth_token", auth_token c); ("refresh_token", refresh_token c)].

(** The pre-processing at the head of [call]: [params1] after it and
    whether it went through.  When [prepare_batch] raises, [params1] still
    holds the same [cmd] object, with the lists popped so far. *)
Definition prepare_call (method : string) (params1 : option dict)
  : option dict * res unit :=
  if String.eqb method "batch" then
    match params1 with
    | None => (None, Raise TypeError)
    | Some p =>
        if has_key "prepared" p then (params1, Ret tt)
        else
          match lookup "cmd" p with
          | None => (params1, Raise (KeyError (VStr "cmd")))
          | Some cmd =>
              let (cmd', r) := prepare_batch cmd in
              match r with
              | Ret b =>
                  (Some (dict_set (dict_set p "cmd" (VDict b))
                                  "prepared" (VBool true)), Ret tt)
              | Raise e => (Some (dict_set p "cmd" cmd'), Raise e)
              | Diverge => (Some (dict_set p "cmd" cmd'), Diverge)
              end
          end
    end
  else (params1, Ret tt).

(** One round of the encoding loop of [call]. *)
Definition encode_slot (i : option dict) : res string :=
  match i with
  | None => Ret ""
  | Some d =>
      if has_key "cmd" d then
        cmd <- getitem (VDict d) (VStr "cmd") ;;
        e <- encode_cmd cmd ;;
        halt <- getitem (VDict d) (VStr "halt") ;;
        u <- urlencode (VDict [("halt", halt)]) ;;
        Ret (e ++ "&" ++ u ++ "&")
      else
        u <- urlencode (VDict d) ;; Ret (u ++ "&")
  end.

Fixpoint encode_slots (slots : list (option dict)) (encoded_parameters : string)
  : res string :=
  match slots with
  | [] => Ret encoded_parameters
  | i :: slots' =>
      s <- encode_slot i ;; encode_slots slots' (encoded_parameters ++ s)
  end.

(** [{'auth': self.auth_token} if self.auth_token else None] *)
Definition auth_slot (c : client) : option dict :=
  if truthy (auth_token c) then Some [("auth", auth_token c)] else None.

(** The [try] block of [call] after the request went out: [result], or
    the exception that leaves the block. *)
Definition decode_reply (r : reply) : res value :=
  match r with
  | Response text =>
      match loads text with
      | Some v => Ret v
      | None =>
          Ret (error_dict ("Error on decode api response [" ++ text ++ "]"))
      end
  | Fails ValueError => Raise AttributeError
  | Fails ReadTimeout =>
      Ret (error_dict ("Timeout waiting expired [" ++ fmt_d timeout ++ " sec]"))
  | Fails ConnectionError =>
      Ret (error_dict ("Max retries exceeded [" ++ fmt_d DEFAULT_RETRIES ++ "]"))
  | Fails e => Raise e
  end.

(** ['error' in result and result['error'] in codes] *)
Definition error_in (result : value) (codes : list string) : res bool :=
  c <- contains_str "error" result ;;
  if c then
    e <- getitem result (VStr "error") ;;
    Ret (existsb (eq_str e) codes)
  else Ret false.

(** [call(self, method, params1, params2, params3, params4)].  The result
    comes with the state and with [params1] as the call leaves it.  [fuel]
    bounds the depth of the recursive retries. *)
Fixpoint call (fuel : nat) (st : state) (method : value)
  (params1 params2 params3 params4 : option dict)
  : res value * state * option dict :=
  match method with
  | VStr m =>
      if String.eqb m "" then (Raise (Exception "Empty Method"), st, params1)
      else
        let (p1, pre) := prepare_call m params1 in
        match pre with
        | Raise e => (Raise e, st, p1)
        | Diverge => (Diverge, st, p1)
        | Ret _ =>
            match encode_slots
                    [p1; params2; params3; params4; auth_slot (self st)] ""
            with
            | Raise e => (Raise e, st, p1)
            | Diverge => (Diverge, st, p1)
            | Ret encoded_parameters =>
                let url := get_url (self st) m in
                let req := PostData url encoded_parameters timeout in
                let st1 := record st (Sent req) in
                match decode_reply (post (trace st) req) with
                | Raise e => (Raise e, st1, p1)
                | Diverge => (Diverge, st1, p1)
                | Ret result =>
                    match error_in result ["NO_AUTH_FOUND"; "expired_token"] with
                    | Raise e => (Raise e, st1, p1)
                    | Diverge => (Diverge, st1, p1)
                    | Ret true =>
                        let (r, st2) := refresh_tokens st1 in
                        match r with
                        | Raise e => (Raise e, st2, p1)
                        | Diverge => (Diverge, st2, p1)
                        | Ret (VBool true) =>
                            match fuel with
                            | O => (Diverge, st2, p1)
                            | S fuel' =>
                                call fuel' st2 method p1 params2 params3 params4
                            end
                        | Ret failure => (Ret failure, st2, p1)
                        end
                    | Ret false =>
                        match error_in result ["QUERY_LIMIT_EXCEEDED"] with
                        | Raise e => (Raise e, st1, p1)
                        | Diverge => (Diverge, st1, p1)
                        | Ret true =>
                            let st2 :=
                              record (record st1 (Printed "SLEEP =)"))
                                     (Slept 2) in
                            match fuel with
                            | O => (Diverge, st2, p1)
                            | S fuel' =>
                                call fuel' st2 method p1 params2 params3 params4
                            end
                        | Ret false => (Ret result, st1, p1)
                        end
                    end
                end
            end
        end
  | _ => (Raise (Exception "Empty Method"), st, params1)
  end.

(** [merge_two_dicts(x, y)]: [z = x.copy(); z.update(y)].  In [batch] the
    second operand is an entry of the accumulator, always a dict; the first
    comes from the response, and only a dict has both [copy] and [update]. *)
Definition merge_two_dicts (x : value) (y : dict) : res dict :=
  match x with
  | VDict dx => Ret (dict_update dx y)
  | _ => Raise AttributeError
  end.

(** [result['result'][i]] for the accumulator [result['result']], whose
    entries are dicts. *)
Definition acc_get (acc : list (string * dict)) (i : value) : res dict :=
  match i with
  | VStr s => match lookup s acc with
              | Some d => Ret d
              | None => Raise (KeyError i)
              end
  | VList _ | VDict _ => Raise TypeError
  | _ => Raise (KeyError i)
  end.

(** The body of [for i in temp['result']] in [batch], over the items [items]
    still to come; [tr] is [temp['result']]. *)
Fixpoint merge_loop (tr : value) (items : list value)
  (acc : list (string * dict)) : res (list (string * dict)) :=
  match items with
  | [] => Ret acc
  | i :: items' =>
      x <- getitem tr i ;;
      n <- len x ;;
      if Nat.ltb 0 n then
        y <- acc_get acc i ;;
        z <- merge_two_dicts x y ;;
        match i with
        | VStr s => merge_loop tr items' (dict_set acc s z)
        | _ => Raise TypeError
        end
      else merge_loop tr items' acc
  end.

(** Lines 191-193 of [batch]: merging the response [temp] of one chunk. *)
Definition merge_chunk (temp : value) (acc : list (string * dict))
  : res (list (string * dict)) :=
  tr <- getitem temp (VStr "result") ;;
  items <- iter tr ;;
  merge_loop tr items acc.

(** The loop of [batch] over the sorted request-ids still to come.  [cmd] is
    [params['cmd']], [halt] is [params['halt']], [acc] is
    [result['result']]. *)
Fixpoint batch_loop (fuel : nat) (cmd : dict) (halt : value)
  (ids : list string) (count : nat) (batch : dict)
  (acc : list (string * dict)) (st : state)
  : res (list (string * dict)) * state :=
  match ids with
  | [] => (Ret acc, st)
  | request_id :: ids' =>
      match lookup request_id cmd with
      | None => (Raise (KeyError (VStr request_id)), st)
      | Some v =>
          let batch := dict_set batch request_id v in
          let count := S count in
          if Nat.eqb (length batch) 49 || Nat.eqb count (length cmd) then
            match call fuel st (VStr "batch")
                    (Some [("halt", halt); ("cmd", VDict batch)])
                    None None None
            with
            | (Ret temp, st', _) =>
                match merge_chunk temp acc with
                | Ret acc' => batch_loop fuel cmd halt ids' count [] acc' st'
                | Raise e => (Raise e, st')
                | Diverge => (Diverge, st')
                end
            | (Raise e, st', _) => (Raise e, st')
            | (Diverge, st', _) => (Diverge, st')
            end
          else batch_loop fuel cmd halt ids' count batch acc st
      end
  end.

(** The accumulator that [batch] starts from. *)
Definition empty_acc : list (string * dict) :=
  [("result_error", []); ("result_total", []); ("result", []);
   ("result_next", [])].

(** [result] as a value, from its entry [result['result']]. *)
Definition wrap_acc (acc : list (string * dict)) : value :=
  VDict [("result", VDict (map (fun kd => (fst kd, VDict (snd kd))) acc))].

(** [batch(self, params)].  The lists of [params['cmd']] are shared with the
    chunks handed to [call], which pops their method names; nothing here
    reads them again, and their final contents are not part of the result. *)
Definition batch (fuel : nat) (st : state) (params : dict)
  : res value * state :=
  if negb (has_key "halt" params) || negb (has_key "cmd" params)
  then (Ret (error_dict "Invalid batch structure"), st)
  else
    match lookup "cmd" params, lookup "halt" params with
    | Some (VDict cmd), Some halt =>
        match batch_loop fuel cmd halt (sorted (keys cmd)) 0 [] empty_acc st
        with
        | (Ret acc, st') => (Ret (wrap_acc acc), st')
        | (Raise e, st') => (Raise e, st')
        | (Diverge, st') => (Diverge, st')
        end
    | Some _, Some _ => (Raise AttributeError, st)
    | _, _ => (Raise (KeyError (VStr "cmd")), st)
    end.

(** ** Descriptions used in the statements *)

(** What [pop(0)] leaves of a list. *)
Definition pop_first (v : value) : value :=
  match v with
  | VList (_ :: rest) => VList rest
  | _ => v
  end.

(** The form-encoding of the remaining elements of a command: the encoded
    elements [us], each followed by ['&']. *)
Definition joined (us : list string) : string :=
  fold_right String.append "" (map (fun u => u ++ "&") us).

(** A command that [prepare_batch] accepts, and the string it is turned
    into: a list that starts with a method name other than ["batch"] and
    goes on with elements that the form encoder accepts. *)
Inductive prepares : value -> string -> Prop :=
| prepares_intro (m : string) (rest : list value) (us : list string) :
    m <> "batch" ->
    Forall2 (fun i u => urlencode i = Ret u) rest us ->
    prepares (VList (VStr m :: rest)) (m ++ "?" ++ joined us).

(** A command that [prepare_batch] refuses with its own exception. *)
Inductive refused : value -> string -> Prop :=
| refused_not_list (v : value) :
    (forall l, v <> VList l) ->
    refused v "Invalid 'cmd' method description"
| refused_batch (m : value) (rest : list value) :
    eq_str m "batch" = true ->
    refused (VList (m :: rest)) "Batch call cannot contain batch methods".

(** The chunk that [batch] builds from the request-ids [ids] of [cmd]. *)
Fixpoint chunk_of (cmd : dict) (ids : list string) : dict :=
  match ids with
  | [] => []
  | k :: ids' =>
      match lookup k cmd with
      | Some v => (k, v) :: chunk_of cmd ids'
      | None => chunk_of cmd ids'
      end
  end.

(** Consecutive pieces of at most [n] request-ids; [fuel] bounds the number
    of pieces. *)
Fixpoint pieces (n fuel : nat) (ids : list string) : list (list string) :=
  match fuel with
  | O => []
  | S fuel' =>
      match ids with
      | [] => []
      | _ => firstn n ids :: pieces n fuel' (skipn n ids)
      end
  end.

(** The spec's partition of the sorted request-ids of [cmd] into chunks of
    at most 49 entries. *)
Definition chunks (cmd : dict) : list dict :=
  let ids := sorted (keys cmd) in
  map (chunk_of cmd) (pieces 49 (length ids) ids).

(** What [batch] does with one chunk [c], the call and the merge, before it
    goes on with [k]. *)
Definition chunk_round (fuel : nat) (halt : value) (c : dict)
  (acc : list (string * dict)) (st : state)
  (k : list (string * dict) -> state -> res (list (string * dict)) * state)
  : res (list (string * dict)) * state :=
  match call fuel st (VStr "batch")
          (Some [("halt", halt); ("cmd", VDict c)]) None None None
  with
  | (Ret temp, st', _) =>
      match merge_chunk temp acc with
      | Ret acc' => k acc' st'
      | Raise e => (Raise e, st')
      | Diverge => (Diverge, st')
      end
  | (Raise e, st', _) => (Raise e, st')
  | (Diverge, st', _) => (Diverge, st')
  end.

(** The spec's description of [batch]: for each chunk in turn, invoke
    [call('batch', {halt, cmd: chunk})] and merge its response. *)
Fixpoint run_chunks (fuel : nat) (halt : value) (chunks : list dict)
  (acc : list (string * dict)) (st : state)
  : res (list (string * dict)) * state :=
  match chunks with
  | [] => (Ret acc, st)
  | c :: chunks' =>
      chunk_round fuel halt c acc st (run_chunks fuel halt chunks')
  end.

(** The chunk responses of such a run: the values that its calls
    returned, chunk after chunk, up to the first call or merge that does
    not return. *)
Fixpoint responses (fuel : nat) (halt : value) (chunks : list dict)
  (acc : list (string * dict)) (st : state) : list value :=
  match chunks with
  | [] => []
  | c :: chunks' =>
      match call fuel st (VStr "batch")
              (Some [("halt", halt); ("cmd", VDict c)]) None None None
      with
      | (Ret temp, st', _) =>
          temp :: match merge_chunk temp acc with
                  | Ret acc' => responses fuel halt chunks' acc' st'
                  | _ => []
                  end
      | _ => []
      end
  end.

(** How [batch] wraps the outcome of its loop. *)
Definition finish (r : res (list (string * dict)) * state)
  : res value * state :=
  match r with
  | (Ret acc, st') => (Ret (wrap_acc acc), st')
  | (Raise e, st') => (Raise e, st')
  | (Diverge, st') => (Diverge, st')
  end.

(** A sub-map of a chunk response that the merging loop of [batch] gets
    through: empty, or a dict whose name the accumulator knows. *)
Definition mergeable (acc : list (string * dict)) (kv : string * value)
  : Prop :=
  match snd kv with
  | VDict [] | VList [] | VStr "" => True
  | VDict _ => has_key (fst kv) acc = true
  | _ => False
  end.

(** The entry that the merging loop leaves under the name [i], given the
    sub-map [x] of the response under that name. *)
Definition merged_entry (x : option value) (y : dict) : dict :=
  match x with
  | Some (VDict (e :: dx)) => dict_update (e :: dx) y
  | _ => y
  end.

(** The request that [call] posts for the method [m] with the body [body],
    and the request that [refresh_tokens] posts. *)
Definition api_request (c : client) (m body : string) : request :=
  PostData (get_url c m) body timeout.

Definition oauth_request (c : client) : request :=
  PostParams oauth_url
    [("grant_type", VStr "refresh_token");
     ("client_id", VStr (client_id c));
     ("client_secret", VStr (client_secret c));
     ("refresh_token", refresh_token c)].

(** A response in which the sub-map [i] of the result, when there is one,
    is empty. *)
Definition quiet (i : string) (temp : value) : Prop :=
  forall tr x,
    getitem temp (VStr "result") = Ret tr ->
    getitem tr (VStr i) = Ret x -> len x = Ret 0.

(** A response whose result holds no mapping with a repeated key (a JSON
    object is decoded to a dict, which has none), and an accumulator whose
    entries have none. *)
Definition wf_response (temp : value) : Prop :=
  forall tr i x,
    getitem temp (VStr "result") = Ret tr ->
    getitem tr (VStr i) = Ret (VDict x) -> dict_wf x.

Definition acc_wf (acc : list (string * dict)) : Prop :=
  forall i y, lookup i acc = Some y -> dict_wf y.

(** Every value stored in the accumulator [acc] is still where it was in
    [acc']. *)
Definition keeps_stored (acc acc' : list (string * dict)) : Prop :=
  forall i y k v,
    lookup i acc = Some y -> lookup k y = Some v ->
    exists y', lookup i acc' = Some y' /\ lookup k y' = Some v.

(** The events of a trace that are requests with a body, with their URL. *)
Definition data_urls (t : list event) : list string :=
  flat_map (fun e => match e with
                     | Sent (PostData url _ _) => [url]
                     | _ => []
                     end) t.

(** The encoding of the entry of [cmd] under the request-id [k] in
    [encode_cmd]: [u] is [urlencode({'cmd': {k: cmd[k]}})]. *)
Definition entry_encoded (cmd : dict) (k u : string) : Prop :=
  exists v, lookup k cmd = Some v /\
            urlencode (VDict [("cmd", VDict [(k, v)])]) = Ret u.

(** Case analysis on the next [match] or [if] of the goal. *)
Ltac break_match :=
  match goal with
  | |- context [match ?x with _ => _ end] => destruct x eqn:?
  | |- context [if ?x then _ else _] => destruct x eqn:?
  end.

(** ** The order on request-ids and [sorted] *)

Lemma str_le_iff (a b : string) :
  str_le a b = true <-> a = b \/ String_as_OT.lt a b.
Proof.
  unfold str_le.
  destruct (String_as_OT.compare_spec a b) as [E | H | H].
  - split; auto.
  - split; auto.
  - split; [discriminate |].
    intros [E | H']; exfalso.
    + rewrite E in H. exact (StrictOrder_Irreflexive b H).
    + exact (StrictOrder_Irreflexive a (StrictOrder_Transitive _ _ _ H' H)).
Qed.

Lemma str_le_refl (a : string) : str_le a a = true.
Proof. apply str_le_iff. left. reflexivity. Qed.

Lemma str_le_antisym (a b : string) :
  str_le a b = true -> str_le b a = true -> a = b.
Proof.
  rewrite !str_le_iff.
  intros [E | H1] [E' | H2]; auto.
  exfalso.
  exact (StrictOrder_Irreflexive a (StrictOrder_Transitive _ _ _ H1 H2)).
Qed.

Lemma str_le_total (a b : string) : str_le a b = true \/ str_le b a = true.
Proof.
  rewrite !str_le_iff.
  destruct (String_as_OT.compare_spec a b) as [E | H | H]; auto.
Qed.

Lemma str_le_trans (a b c : string) :
  str_le a b = true -> str_le b c = true -> str_le a c = true.
Proof.
  rewrite !str_le_iff.
  intros [E1 | H1] [E2 | H2]; subst; auto.
  right. exact (StrictOrder_Transitive _ _ _ H1 H2).
Qed.

Lemma insert_sorted_perm (a : string) (l : list string) :
  Permutation (insert_sorted a l) (a :: l).
Proof.
  induction l as [| b l IH]; simpl.
  - apply Permutation_refl.
  - destruct (str_le a b).
    + apply Permutation_refl.
    + eapply perm_trans; [apply perm_skip, IH | apply perm_swap].
Qed.

Lemma sorted_perm (l : list string) : Permutation (sorted l) l.
Proof.
  induction l as [| a l IH]; simpl.
  - constructor.
  - eapply perm_trans; [apply insert_sorted_perm | apply perm_skip, IH].
Qed.

Lemma insert_sorted_comm (a b : string) (l : list string) :
  insert_sorted a (insert_sorted b l) = insert_sorted b (insert_sorted a l).
Proof.
  induction l as [| c l IH]; simpl.
  - destruct (str_le a b) eqn:Hab, (str_le b a) eqn:Hba; auto.
    + rewrite (str_le_antisym a b Hab Hba). reflexivity.
    + destruct (str_le_total a b); congruence.
  - destruct (str_le b c) eqn:Hbc, (str_le a c) eqn:Hac; simpl;
      rewrite ?Hbc, ?Hac.
    + destruct (str_le a b) eqn:Hab, (str_le b a) eqn:Hba; auto.
      * rewrite (str_le_antisym a b Hab Hba). reflexivity.
      * destruct (str_le_total a b); congruence.
    + destruct (str_le a b) eqn:Hab; auto.
      rewrite (str_le_trans a b c Hab Hbc) in Hac. discriminate.
    + destruct (str_le b a) eqn:Hba; auto.
      rewrite (str_le_trans b a c Hba Hac) in Hbc. discriminate.
    + rewrite IH. reflexivity.
Qed.

Lemma sorted_of_perm (l1 l2 : list string) :
  Permutation l1 l2 -> sorted l1 = sorted l2.
Proof.
  induction 1; simpl; try congruence.
  apply insert_sorted_comm.
Qed.

Lemma insert_sorted_locally (a : string) (l : list string) :
  Sorted (fun x y => str_le x y = true) l ->
  Sorted (fun x y => str_le x y = true) (insert_sorted a l).
Proof.
  induction 1 as [| b l Hs IH Hhd]; simpl.
  - repeat constructor.
  - destruct (str_le a b) eqn:Hab.
    + constructor; [constructor; assumption | constructor; assumption].
    + constructor; [assumption |].
      assert (Hba : str_le b a = true)
        by (destruct (str_le_total a b); congruence).
      destruct l as [| c l]; simpl in *.
      * constructor. assumption.
      * destruct (str_le a c); constructor; [assumption |].
        inversion Hhd; assumption.
Qed.

Lemma sorted_is_sorted (l : list string) :
  Sorted (fun x y => str_le x y = true) (sorted l).
Proof.
  induction l as [| a l IH]; simpl.
  - constructor.
  - apply insert_sorted_locally, IH.
Qed.

Lemma sorted_length (l : list string) : length (sorted l) = length l.
Proof. apply Permutation_length, sorted_perm. Qed.

Lemma sorted_NoDup (l : list string) : NoDup l -> NoDup (sorted l).
Proof.
  intro H. eapply Permutation_NoDup; [| exact H].
  apply Permutation_sym, sorted_perm.
Qed.

Lemma sorted_In (a : string) (l : list string) : In a (sorted l) <-> In a l.
Proof.
  split; apply Permutation_in;
    [apply sorted_perm | apply Permutation_sym, sorted_perm].
Qed.

(** ** Dicts *)

Lemma lookup_dict_set_eq {V : Type} (d : list (string * V)) (k : string) (v : V) :
  lookup k (dict_set d k v) = Some v.
Proof.
  induction d as [| [k' v'] d IH]; simpl.
  - rewrite String.eqb_refl. reflexivity.
  - destruct (String.eqb k k') eqn:E; simpl; rewrite E; auto.
Qed.

Lemma lookup_dict_set_ne {V : Type} (d : list (string * V)) (k k' : string)
  (v : V) :
  k <> k' -> lookup k (dict_set d k' v) = lookup k d.
Proof.
  intro Hne. induction d as [| [k0 v0] d IH]; simpl.
  - apply String.eqb_neq in Hne. rewrite Hne. reflexivity.
  - destruct (String.eqb k' k0) eqn:E; simpl.
    + apply String.eqb_eq in E. subst k0.
      apply String.eqb_neq in Hne. rewrite Hne. reflexivity.
    + destruct (String.eqb k k0); auto.
Qed.

Lemma lookup_dict_set {V : Type} (d : list (string * V)) (k k' : string) (v : V) :
  lookup k (dict_set d k' v) = if String.eqb k k' then Some v else lookup k d.
Proof.
  destruct (String.eqb k k') eqn:E.
  - apply String.eqb_eq in E. subst. apply lookup_dict_set_eq.
  - apply String.eqb_neq in E. apply lookup_dict_set_ne. assumption.
Qed.

Lemma lookup_None {V : Type} (d : list (string * V)) (k : string) :
  lookup k d = None <-> ~ In k (keys d).
Proof.
  clear loads.
  induction d as [| [k' v'] d IH]; simpl.
  - tauto.
  - destruct (String.eqb k k') eqn:E.
    + apply String.eqb_eq in E. subst. split; [discriminate | tauto].
    + apply String.eqb_neq in E. rewrite IH. split.
      * intros H [H1 | H1]; [congruence | tauto].
      * tauto.
Qed.

Lemma lookup_Some_In {V : Type} (d : list (string * V)) (k : string) (v : V) :
  lookup k d = Some v -> In (k, v) d.
Proof.
  induction d as [| [k' v'] d IH]; simpl; [discriminate |].
  destruct (String.eqb k k') eqn:E.
  - apply String.eqb_eq in E. subst. intro H. injection H as ->. auto.
  - auto.
Qed.

Lemma lookup_Some_key {V : Type} (d : list (string * V)) (k : string) (v : V) :
  lookup k d = Some v -> In k (keys d).
Proof.
  intro H. apply lookup_Some_In in H.
  apply (in_map fst) in H. exact H.
Qed.

Lemma In_lookup {V : Type} (d : list (string * V)) (k : string) (v : V) :
  dict_wf d -> In (k, v) d -> lookup k d = Some v.
Proof.
  clear loads.
  unfold dict_wf.
  induction d as [| [k' v'] d IH]; simpl; [tauto |].
  intros Hnd [H | H].
  - injection H as -> ->. rewrite String.eqb_refl. reflexivity.
  - inversion Hnd as [| ? ? Hnotin Hnd']; subst.
    destruct (String.eqb k k') eqn:E.
    + apply String.eqb_eq in E. subst. exfalso. apply Hnotin.
      apply (in_map fst) in H. exact H.
    + auto.
Qed.

Lemma has_key_true {V : Type} (d : list (string * V)) (k : string) :
  has_key k d = true <-> In k (keys d).
Proof.
  clear loads.
  unfold has_key. destruct (lookup k d) eqn:E.
  - split; auto. intros _. eapply lookup_Some_key; eauto.
  - apply lookup_None in E. split; [discriminate | tauto].
Qed.

Lemma keys_dict_set_old {V : Type} (d : list (string * V)) (k : string) (v : V) :
  In k (keys d) -> keys (dict_set d k v) = keys d.
Proof.
  clear loads.
  induction d as [| [k' v'] d IH]; simpl; [tauto |].
  intros H. destruct (String.eqb k k') eqn:E; simpl.
  - reflexivity.
  - apply String.eqb_neq in E. f_equal. apply IH.
    destruct H; [congruence | assumption].
Qed.

Lemma dict_set_new {V : Type} (d : list (string * V)) (k : string) (v : V) :
  ~ In k (keys d) -> dict_set d k v = (d ++ [(k, v)])%list.
Proof.
  clear loads.
  induction d as [| [k' v'] d IH]; simpl; [reflexivity |].
  intros H. destruct (String.eqb k k') eqn:E.
  - apply String.eqb_eq in E. subst. tauto.
  - f_equal. apply IH. tauto.
Qed.

Lemma keys_dict_set_perm {V : Type} (d : list (string * V)) (k : string) (v : V) :
  forall x, In x (keys (dict_set d k v)) <-> x = k \/ In x (keys d).
Proof.
  clear loads.
  intro x. induction d as [| [k' v'] d IH]; simpl.
  - intuition.
  - destruct (String.eqb k k') eqn:E; simpl.
    + apply String.eqb_eq in E. subst. intuition.
    + rewrite IH. intuition.
Qed.

Lemma dict_set_wf {V : Type} (d : list (string * V)) (k : string) (v : V) :
  dict_wf d -> dict_wf (dict_set d k v).
Proof.
  clear loads.
  unfold dict_wf.
  induction d as [| [k' v'] d IH]; simpl.
  - intros _. repeat constructor. simpl. tauto.
  - intro H. inversion H as [| ? ? Hnotin Hnd]; subst.
    destruct (String.eqb k k') eqn:E; simpl.
    + assumption.
    + constructor; [| auto].
      intro Hin. apply keys_dict_set_perm in Hin.
      apply String.eqb_neq in E. destruct Hin; [congruence | tauto].
Qed.

Lemma distinct_NoDup (l : list string) : distinct l = true -> NoDup l.
Proof.
  induction l as [| a l IH]; simpl; intro H; constructor.
  - apply andb_true_iff in H. destruct H as [H _].
    apply negb_true_iff in H. intro Hin.
    assert (E : existsb (String.eqb a) l = true).
    { apply existsb_exists. exists a. split; [exact Hin |].
      apply String.eqb_refl. }
    congruence.
  - apply andb_true_iff in H. destruct H as [_ H]. auto.
Qed.

Lemma length_keys {V : Type} (d : list (string * V)) :
  length (keys d) = length d.
Proof. apply length_map. Qed.

(** Two dicts with the same keys in the same order and the same values
    under them are the same dict. *)
Lemma dict_ext {V : Type} (d1 d2 : list (string * V)) :
  dict_wf d1 -> keys d1 = keys d2 ->
  (forall k, lookup k d1 = lookup k d2) -> d1 = d2.
Proof.
  unfold dict_wf.
  revert d2. induction d1 as [| [k v] d1 IH]; intros [| [k2 v2] d2];
    simpl; try discriminate; auto.
  intros Hnd Hk Hl. injection Hk as <- Hk.
  inversion Hnd as [| ? ? Hnotin Hnd']; subst.
  assert (Hv := Hl k). rewrite String.eqb_refl in Hv. injection Hv as <-.
  f_equal. apply IH; auto.
  intro k'. specialize (Hl k').
  destruct (String.eqb k' k) eqn:E; auto.
  apply String.eqb_eq in E. subst k'.
  assert (H1 : lookup k d1 = None) by (apply lookup_None; assumption).
  assert (H2 : lookup k d2 = None)
    by (apply lookup_None; rewrite <- Hk; assumption).
  congruence.
Qed.

(** [dict_update]: the second operand wins, the first one's order comes
    first. *)
Lemma lookup_dict_update (x y : dict) (k : string) :
  dict_wf y ->
  lookup k (dict_update x y) =
    match lookup k y with
    | Some v => Some v
    | None => lookup k x
    end.
Proof.
  unfold dict_update, dict_wf.
  revert x. induction y as [| [k' v'] y IH]; intros x Hnd; simpl.
  - reflexivity.
  - inversion Hnd as [| ? ? Hnotin Hnd']; subst.
    rewrite IH by assumption.
    destruct (String.eqb k k') eqn:E.
    + apply String.eqb_eq in E. subst k'.
      assert (H1 : lookup k y = None) by (apply lookup_None; assumption).
      rewrite H1. apply lookup_dict_set_eq.
    + destruct (lookup k y); auto.
      apply lookup_dict_set_ne. apply String.eqb_neq. assumption.
Qed.

Lemma dict_update_wf (x y : dict) : dict_wf x -> dict_wf (dict_update x y).
Proof.
  unfold dict_update. revert x.
  induction y as [| [k v] y IH]; intros x H; simpl; auto.
  apply IH. apply dict_set_wf. assumption.
Qed.

Lemma dict_update_nil (x : dict) : dict_update x [] = x.
Proof. reflexivity. Qed.

Lemma keys_dict_update (x y : dict) (k : string) :
  In k (keys (dict_update x y)) <-> In k (keys x) \/ In k (keys y).
Proof.
  clear urlencode loads.
  unfold dict_update. revert x.
  induction y as [| [k' v'] y IH]; intros x; simpl.
  - tauto.
  - rewrite IH, keys_dict_set_perm. intuition.
Qed.

(** ** The URL and the head of [call] *)

Lemma append_assoc (a b c : string) : (a ++ b) ++ c = a ++ b ++ c.
Proof. induction a as [| x a IH]; simpl; congruence. Qed.

Lemma append_nil_r (a : string) : a ++ "" = a.
Proof. induction a as [| x a IH]; simpl; congruence. Qed.

Lemma append_cancel_l (s a b : string) : s ++ a = s ++ b -> a = b.
Proof.
  induction s as [| c s IH]; simpl; intro H; [assumption |].
  injection H as H. auto.
Qed.

Lemma webhook_url_not_api_url (d : string) (u : Z) (k m : string) :
  webhook_url d u k m <> api_url d m.
Proof.
  unfold webhook_url, api_url. intro H.
  repeat (apply append_cancel_l in H). simpl in H. discriminate.
Qed.

Lemma data_urls_app (t1 t2 : list event) :
  data_urls (t1 ++ t2) = (data_urls t1 ++ data_urls t2)%list.
Proof. unfold data_urls. apply flat_map_app. Qed.

(** [refresh_tokens] writes the two tokens and nothing else of the client;
    it sends no request with a body. *)
Lemma refresh_tokens_frame (st st' : state) (r : res value) :
  refresh_tokens st = (r, st') ->
  exists added,
    trace st' = (trace st ++ added)%list /\ data_urls added = [] /\
    domain (self st') = domain (self st) /\
    webhook_key (self st') = webhook_key (self st) /\
    webhook_user (self st') = webhook_user (self st).
Proof.
  unfold refresh_tokens.
  repeat break_match; intro H; injection H as <- <-; simpl;
    solve [ eexists; split; [reflexivity | simpl; auto]
          | eexists; split; [rewrite <- app_assoc; reflexivity | simpl; auto] ].
Qed.

Lemma get_url_frame (c c' : client) (m : string) :
  domain c' = domain c -> webhook_key c' = webhook_key c ->
  webhook_user c' = webhook_user c -> get_url c' m = get_url c m.
Proof. unfold get_url. intros -> -> ->. reflexivity. Qed.

(** Every request with a body that [call] sends, retries included, goes to
    the URL of the method. *)
Lemma call_data_urls (fuel : nat) (m : string) (p2 p3 p4 : option dict) :
  forall (st : state) (p1 : option dict),
  exists added,
    trace (snd (fst (call fuel st (VStr m) p1 p2 p3 p4)))
      = (trace st ++ added)%list /\
    Forall (fun u => u = get_url (self st) m) (data_urls added).
Proof.
  induction fuel as [| fuel IH]; intros st p1; cbn [call].
  - repeat break_match; simpl;
      try solve [ exists []; rewrite app_nil_r; split; [reflexivity | constructor]
                | eexists; split; [reflexivity | repeat constructor] ];
      match goal with
      | H : refresh_tokens _ = _ |- _ =>
          apply refresh_tokens_frame in H;
          destruct H as (added & Ht & Hu & _); simpl in Ht; rewrite Ht;
          rewrite <- app_assoc; eexists; split; [reflexivity |];
          simpl; rewrite Hu; repeat constructor
      | _ => idtac
      end.
    all: eexists; split; [rewrite <- !app_assoc; reflexivity | repeat constructor].
  - repeat break_match; simpl;
      try solve [ exists []; rewrite app_nil_r; split; [reflexivity | constructor]
                | eexists; split; [reflexivity | repeat constructor] ];
      match goal with
      | H : refresh_tokens _ = _ |- _ =>
          apply refresh_tokens_frame in H;
          destruct H as (added & Ht & Hu & Hd & Hk & Hw); simpl in *
      | _ => idtac
      end.
    all: try solve [ rewrite Ht; rewrite <- app_assoc; eexists;
                     split; [reflexivity |]; simpl; rewrite Hu;
                     repeat constructor ].
    + destruct (IH s o) as (added' & Ht' & Hu').
      rewrite Ht', Ht.
      exists ((Sent (PostData (get_url (self st) m) a0 timeout) :: added)
                ++ added')%list.
      split; [rewrite <- !app_assoc; reflexivity |].
      rewrite data_urls_app. simpl. rewrite Hu. simpl.
      constructor; [reflexivity |].
      rewrite (get_url_frame _ _ m Hd Hk Hw) in Hu'. exact Hu'.
    + match goal with
      | |- context [call fuel ?s0 _ ?o0 _ _ _] =>
          destruct (IH s0 o0) as (added' & Ht' & Hu')
      end.
      rewrite Ht'. simpl.
      eexists. split; [rewrite <- !app_assoc; reflexivity |].
      simpl. constructor; [reflexivity |]. exact Hu'.
Qed.

(** C7. When [method] is the empty string or is not a string at all
    ([None] included), [call] raises its argument fault ['Empty Method']
    and nothing has happened: the state, and with it the record of
    transport invocations, is the one before the call, and [params1] is
    untouched. *)
Theorem call_rejects_bad_method (fuel : nat) (st : state) (method : value)
  (p1 p2 p3 p4 : option dict) :
  method = VStr "" \/ is_str method = false ->
  call fuel st method p1 p2 p3 p4 = (Raise (Exception "Empty Method"), st, p1)
  /\ posts (trace (snd (fst (call fuel st method p1 p2 p3 p4))))
       = posts (trace st).
Proof.
  intros [-> | H].
  - destruct fuel; simpl; auto.
  - destruct method; try discriminate; destruct fuel; simpl; auto.
Qed.

(** C8. For every non-empty method string, [get_url] is the webhook form
    (domain, webhook user id, webhook key, method) exactly when
    [webhook_key] is non-empty and the OAuth API form (domain, method)
    exactly when it is empty; and every request with a body that [call]
    sends for that method goes to this URL. *)
Theorem call_url_selection (c : client) (method : string) :
  method <> "" ->
  (webhook_key c <> "" <->
     get_url c method
       = webhook_url (domain c) (webhook_user c) (webhook_key c) method)
  /\ (webhook_key c = "" <-> get_url c method = api_url (domain c) method)
  /\ forall fuel st p1 p2 p3 p4,
       self st = c ->
       exists added,
         trace (snd (fst (call fuel st (VStr method) p1 p2 p3 p4)))
           = (trace st ++ added)%list /\
         Forall (fun u => u = get_url c method) (data_urls added).
Proof.
  intros _. split; [| split].
  - unfold get_url.
    destruct (String.eqb (webhook_key c) "") eqn:E; simpl.
    + apply String.eqb_eq in E. split; [congruence |].
      intros H _. symmetry in H. exact (webhook_url_not_api_url _ _ _ _ H).
    + apply String.eqb_neq in E. tauto.
  - unfold get_url.
    destruct (String.eqb (webhook_key c) "") eqn:E; simpl.
    + apply String.eqb_eq in E. tauto.
    + apply String.eqb_neq in E. split; [tauto |].
      intro H. exfalso. exact (webhook_url_not_api_url _ _ _ _ H).
  - intros fuel st p1 p2 p3 p4 <-. apply call_data_urls.
Qed.

(** ** [encode_cmd] *)

Lemma lookup_perm {V : Type} (d1 d2 : list (string * V)) (k : string) :
  dict_wf d1 -> Permutation d1 d2 -> lookup k d1 = lookup k d2.
Proof.
  intros Hwf Hp.
  assert (Hwf2 : dict_wf d2).
  { unfold dict_wf, keys in *. eapply Permutation_NoDup; [| exact Hwf].
    apply Permutation_map. exact Hp. }
  destruct (lookup k d1) eqn:E1.
  - apply lookup_Some_In in E1. symmetry. apply In_lookup; auto.
    eapply Permutation_in; eauto.
  - destruct (lookup k d2) eqn:E2; auto.
    apply lookup_Some_In in E2.
    apply Permutation_sym in Hp.
    assert (H := Permutation_in _ Hp E2).
    apply In_lookup in H; auto. congruence.
Qed.

Lemma encode_loop_ext (ids : list string) (d1 d2 : dict) (acc : string) :
  (forall k, In k ids -> lookup k d1 = lookup k d2) ->
  encode_loop ids d1 acc = encode_loop ids d2 acc.
Proof.
  revert acc. induction ids as [| i ids IH]; intros acc H; simpl.
  - reflexivity.
  - rewrite <- (H i) by (left; reflexivity).
    destruct (lookup i d1); auto.
    destruct (urlencode _); simpl; auto.
    apply IH. intros k Hk. apply H. right. exact Hk.
Qed.

Lemma encode_loop_returns (ids : list string) (d : dict) (acc : string) :
  (forall k, In k ids ->
     exists v s, lookup k d = Some v /\
                 urlencode (VDict [("cmd", VDict [(k, v)])]) = Ret s) ->
  exists out, encode_loop ids d acc = Ret out.
Proof.
  revert acc. induction ids as [| i ids IH]; intros acc H; simpl.
  - eauto.
  - destruct (H i) as (v & s & Hl & Hu); [left; reflexivity |].
    rewrite Hl, Hu. simpl. apply IH.
    intros k Hk. apply H. right. exact Hk.
Qed.

(** The loop of [encode_cmd] appends, for each request-id in turn, the
    encoding of its entry and ['&']. *)
Lemma encode_loop_joined (d : dict) (ids us : list string) :
  Forall2 (entry_encoded d) ids us ->
  forall acc, encode_loop ids d acc = Ret (acc ++ joined us).
Proof.
  induction 1 as [| k u ids us (v & Hl & Hu) _ IH]; intro acc; simpl.
  - rewrite append_nil_r. reflexivity.
  - rewrite Hl, Hu. simpl. rewrite IH. unfold joined. simpl.
    rewrite !append_assoc. reflexivity.
Qed.

Lemma entries_encoded (d : dict) (ids : list string) :
  (forall k, In k ids ->
     exists v s, lookup k d = Some v /\
                 urlencode (VDict [("cmd", VDict [(k, v)])]) = Ret s) ->
  exists us, Forall2 (entry_encoded d) ids us.
Proof.
  induction ids as [| k ids IH]; intro H.
  - exists []. constructor.
  - destruct (H k (or_introl eq_refl)) as (v & s & Hl & Hu).
    destruct IH as (us & Hus); [intros k' Hk'; apply H; right; exact Hk' |].
    exists (s :: us). constructor; [exists v; auto | exact Hus].
Qed.

(** C9. Two command maps holding the same request-id/value pairs, in
    whatever insertion order, are encoded by [encode_cmd] to the same
    outcome, byte for byte.  The string is produced by going through the
    request-ids in sorted order: it is the encoding of the entry under
    the first of the sorted request-ids followed by ['&'], then that of
    the second followed by ['&'], and so on, and it is returned whenever
    the form encoder accepts every entry.  The sorted request-ids are one
    and the same list for both maps, in ascending order and holding the
    request-ids of the map. *)
Theorem encode_cmd_order_independent (d1 d2 : dict) :
  dict_wf d1 -> Permutation d1 d2 ->
  encode_cmd (VDict d1) = encode_cmd (VDict d2)
  /\ (forall us,
        Forall2 (entry_encoded d1) (sorted (keys d1)) us ->
        encode_cmd (VDict d1) = Ret (joined us) /\
        encode_cmd (VDict d2) = Ret (joined us))
  /\ ((forall k v, In (k, v) d1 ->
         exists s, urlencode (VDict [("cmd", VDict [(k, v)])]) = Ret s) ->
      exists us,
        Forall2 (entry_encoded d1) (sorted (keys d1)) us /\
        encode_cmd (VDict d1) = Ret (joined us))
  /\ sorted (keys d1) = sorted (keys d2)
  /\ Sorted (fun a b => str_le a b = true) (sorted (keys d1))
  /\ Permutation (sorted (keys d1)) (keys d1).
Proof.
  intros Hwf Hp.
  assert (Hs : sorted (keys d1) = sorted (keys d2)).
  { apply sorted_of_perm. unfold keys. apply Permutation_map. exact Hp. }
  assert (Heq : encode_cmd (VDict d1) = encode_cmd (VDict d2)).
  { simpl. rewrite <- Hs. apply encode_loop_ext.
    intros k _. apply lookup_perm; assumption. }
  assert (Hout : forall us,
             Forall2 (entry_encoded d1) (sorted (keys d1)) us ->
             encode_cmd (VDict d1) = Ret (joined us)).
  { intros us Hus. cbn [encode_cmd].
    rewrite (encode_loop_joined d1 _ us Hus ""). reflexivity. }
  split; [exact Heq | split; [| split; [| split; [| split]]]].
  - intros us Hus. split; [| rewrite <- Heq]; apply Hout; exact Hus.
  - intro Henc.
    destruct (entries_encoded d1 (sorted (keys d1))) as (us & Hus).
    + intros k Hk. apply (proj1 (sorted_In _ _)) in Hk.
      destruct (lookup k d1) as [v |] eqn:El.
      * destruct (Henc k v (lookup_Some_In _ _ _ El)) as (s & Hu). eauto.
      * apply lookup_None in El. contradiction.
    + exists us. split; [exact Hus | apply Hout; exact Hus].
  - exact Hs.
  - apply sorted_is_sorted.
  - apply sorted_perm.
Qed.

(** ** [prepare_batch] *)

Lemma encode_each_joined (rest : list value) (us : list string) :
  Forall2 (fun i u => urlencode i = Ret u) rest us ->
  forall temp, encode_each rest temp = Ret (temp ++ joined us).
Proof.
  induction 1 as [| i u rest us Hu _ IH]; intro temp; simpl.
  - rewrite append_nil_r. reflexivity.
  - rewrite Hu. simpl. rewrite IH. unfold joined. simpl.
    rewrite !append_assoc. reflexivity.
Qed.

Lemma encoded_functional (rest : list value) (us us' : list string) :
  Forall2 (fun i u => urlencode i = Ret u) rest us ->
  Forall2 (fun i u => urlencode i = Ret u) rest us' -> us = us'.
Proof.
  intro H. revert us'.
  induction H as [| a u l us Ha _ IH]; intros us' H'; inversion H'; subst.
  - reflexivity.
  - f_equal; [congruence | auto].
Qed.

Lemma prepares_functional (v : value) (s s' : string) :
  prepares v s -> prepares v s' -> s = s'.
Proof.
  intros H H'. destruct H as [m rest us Hm Hus].
  inversion H' as [m' rest' us' Hm' Hus']. subst.
  rewrite (encoded_functional _ _ _ Hus Hus'). reflexivity.
Qed.

(** One round of the loop on an accepted command. *)
Lemma prepare_loop_step (i : string) (ids : list string) (params batched : dict)
  (v : value) (s : string) :
  lookup i params = Some v -> prepares v s ->
  prepare_loop (i :: ids) params batched
    = prepare_loop ids (dict_set params i (pop_first v))
        (dict_set batched i (VStr s)).
Proof.
  intros Hl Hp. destruct Hp as [m rest us Hm Hus].
  cbn [prepare_loop]. rewrite Hl. cbn [eq_str pop_first].
  apply String.eqb_neq in Hm. rewrite Hm.
  rewrite (encode_each_joined _ _ Hus). cbn [add_str].
  rewrite append_assoc. reflexivity.
Qed.

(** The loop over request-ids whose commands are all accepted. *)
Lemma prepare_loop_accepted (ids more : list string) :
  forall (params batched : dict),
  NoDup ids ->
  (forall k, In k ids -> exists v s, lookup k params = Some v /\ prepares v s) ->
  exists params' batched',
    prepare_loop (ids ++ more) params batched
      = prepare_loop more params' batched' /\
    keys params' = keys params /\
    (forall k, In k ids ->
               lookup k params' = option_map pop_first (lookup k params)) /\
    (forall k, ~ In k ids -> lookup k params' = lookup k params) /\
    (forall k v s, In k ids -> lookup k params = Some v -> prepares v s ->
                   lookup k batched' = Some (VStr s)) /\
    (forall k, ~ In k ids -> lookup k batched' = lookup k batched) /\
    ((forall k, In k ids -> ~ In k (keys batched)) ->
     keys batched' = (keys batched ++ ids)%list).
Proof.
  clear loads.
  induction ids as [| i ids IH]; intros params batched Hnd Hok.
  - exists params, batched. simpl. repeat split; auto; try tauto.
    intros _. rewrite app_nil_r. reflexivity.
  - inversion Hnd as [| ? ? Hnotin Hnd']; subst.
    destruct (Hok i (or_introl eq_refl)) as (v & s & Hl & Hp).
    destruct (IH (dict_set params i (pop_first v))
                 (dict_set batched i (VStr s)) Hnd')
      as (params' & batched' & Hrun & Hkeys & Hin & Hout & Hb & Hbout & Hbk).
    { intros k Hk. destruct (Hok k (or_intror Hk)) as (v' & s' & Hl' & Hp').
      exists v', s'. split; [| exact Hp'].
      rewrite lookup_dict_set_ne; [exact Hl' |].
      intro E. subst. contradiction. }
    exists params', batched'. split; [| split; [| split; [| split; [| split; [| split]]]]].
    + simpl app. rewrite (prepare_loop_step i _ _ _ v s Hl Hp). exact Hrun.
    + rewrite Hkeys. apply keys_dict_set_old. eapply lookup_Some_key; eauto.
    + intros k [<- | Hk].
      * rewrite (Hout i Hnotin), lookup_dict_set_eq, Hl. reflexivity.
      * rewrite (Hin k Hk). rewrite lookup_dict_set_ne; [reflexivity |].
        intro E. subst. contradiction.
    + intros k Hk. rewrite Hout by (simpl in Hk; tauto).
      apply lookup_dict_set_ne. intro E. subst. simpl in Hk. tauto.
    + intros k v' s' [<- | Hk] Hl' Hp'.
      * rewrite (Hbout i Hnotin), lookup_dict_set_eq.
        rewrite Hl in Hl'. injection Hl' as <-.
        rewrite (prepares_functional _ _ _ Hp Hp'). reflexivity.
      * apply (Hb k v' s' Hk); [| exact Hp'].
        rewrite lookup_dict_set_ne; [exact Hl' |].
        intro E. subst. contradiction.
    + intros k Hk. rewrite Hbout by (simpl in Hk; tauto).
      apply lookup_dict_set_ne. intro E. subst. simpl in Hk. tauto.
    + intros Hfresh. rewrite Hbk.
      * rewrite dict_set_new by (apply Hfresh; left; reflexivity).
        unfold keys. rewrite map_app. simpl. rewrite <- app_assoc. reflexivity.
      * intros k Hk Hin'. apply keys_dict_set_perm in Hin'.
        destruct Hin' as [-> | Hin']; [contradiction |].
        apply (Hfresh k); [right; exact Hk | exact Hin'].
Qed.
Lemma prepare_loop_refused (k : string) (ids : list string)
  (params batched : dict) (v : value) (msg : string) :
  lookup k params = Some v -> refused v msg ->
  snd (prepare_loop (k :: ids) params batched) = Raise (Exception msg).
Proof.
  intros Hl Hr. cbn [prepare_loop]. rewrite Hl.
  destruct Hr as [v Hv | m rest Hm].
  - destruct v; try reflexivity. exfalso. exact (Hv l eq_refl).
  - rewrite Hm. reflexivity.
Qed.

Lemma lookup_map_values {V W : Type} (f : V -> W) (d : list (string * V))
  (k : string) :
  lookup k (map (fun kv => (fst kv, f (snd kv))) d)
    = option_map f (lookup k d).
Proof.
  induction d as [| [k' v] d IH]; simpl; [reflexivity |].
  destruct (String.eqb k k'); auto.
Qed.

Lemma keys_map_values {V W : Type} (f : V -> W) (d : list (string * V)) :
  keys (map (fun kv => (fst kv, f (snd kv))) d) = keys d.
Proof. unfold keys. rewrite map_map. reflexivity. Qed.

Lemma accepted_by_key (d : dict) :
  dict_wf d ->
  (forall k v, In (k, v) d -> exists s, prepares v s) ->
  forall k, In k (sorted (keys d)) ->
            exists v s, lookup k d = Some v /\ prepares v s.
Proof.
  intros Hwf Hok k Hk. apply (proj1 (sorted_In _ _)) in Hk.
  destruct (lookup k d) as [v |] eqn:El.
  - destruct (Hok k v (lookup_Some_In _ _ _ El)) as (s & Hs). eauto.
  - apply lookup_None in El. contradiction.
Qed.

Lemma list_neq_cons {A : Type} (x : A) (l : list A) : l <> x :: l.
Proof.
  intro H. apply (f_equal (@length A)) in H. simpl in H. lia.
Qed.

(** The loop over commands each of which is accepted or refused, with a
    refused one among them: the first refused one decides. *)
Lemma prepare_loop_some_refused (ids : list string) :
  forall (params batched : dict),
    NoDup ids ->
    (forall k, In k ids ->
       exists v, lookup k params = Some v /\
                 ((exists s, prepares v s) \/ (exists msg, refused v msg))) ->
    (exists k v msg, In k ids /\ lookup k params = Some v /\ refused v msg) ->
    exists k v msg,
      In k ids /\ lookup k params = Some v /\ refused v msg /\
      snd (prepare_loop ids params batched) = Raise (Exception msg).
Proof.
  induction ids as [| i ids IH]; intros params batched Hnd Hall Hsome.
  - destruct Hsome as (k & _ & _ & [] & _).
  - inversion Hnd as [| ? ? Hnotin Hnd']; subst.
    destruct (Hall i (or_introl eq_refl)) as (v & Hl & [(s & Hs) | (msg & Hr)]).
    + destruct Hsome as (k0 & v0 & msg0 & [<- | Hk0] & Hl0 & Hr0).
      * exists i, v0, msg0.
        split; [left; reflexivity | split; [exact Hl0 | split; [exact Hr0 |]]].
        exact (prepare_loop_refused i ids params batched v0 msg0 Hl0 Hr0).
      * destruct (IH (dict_set params i (pop_first v))
                     (dict_set batched i (VStr s)) Hnd')
          as (k1 & v1 & msg1 & Hk1 & Hl1 & Hr1 & Hrun).
        -- intros k Hk. destruct (Hall k (or_intror Hk)) as (v' & Hl' & H').
           exists v'. split; [| exact H'].
           rewrite lookup_dict_set_ne; [exact Hl' |].
           intro E. subst. contradiction.
        -- exists k0, v0, msg0.
           split; [exact Hk0 | split; [| exact Hr0]].
           rewrite lookup_dict_set_ne; [exact Hl0 |].
           intro E. subst. contradiction.
        -- exists k1, v1, msg1.
           split; [right; exact Hk1 | split; [| split; [exact Hr1 |]]].
           ++ rewrite lookup_dict_set_ne in Hl1; [exact Hl1 |].
              intro E. subst. contradiction.
           ++ rewrite (prepare_loop_step i ids params batched v s Hl Hs).
              exact Hrun.
    + exists i, v, msg.
      split; [left; reflexivity | split; [exact Hl | split; [exact Hr |]]].
      exact (prepare_loop_refused i ids params batched v msg Hl Hr).
Qed.

(** C6, as amended. [prepare_batch] raises ['Invalid 'cmd' structure'] when
    its argument is not a mapping.  On a mapping whose values are all lists
    that start with a method name (a string) other than ["batch"] and go
    on with elements the form encoder accepts, it returns a mapping with
    the same keys (in sorted order), each value being
    ["<method>?<remainder>"] with the remainder the encoded remaining
    elements, each followed by ['&'].  On a mapping whose values are such
    lists except for some that are not lists or are lists whose first
    element equals ["batch"], it raises the fault of one of these. *)
Theorem prepare_batch_outcome :
  (forall params, (forall d, params <> VDict d) ->
     prepare_batch params
       = (params, Raise (Exception "Invalid 'cmd' structure")))
  /\ (forall d, dict_wf d ->
        (forall k v, In (k, v) d -> exists s, prepares v s) ->
        exists b,
          snd (prepare_batch (VDict d)) = Ret b /\
          keys b = sorted (keys d) /\
          (forall k, In k (keys b) <-> In k (keys d)) /\
          forall k v, In (k, v) d ->
                      exists s, prepares v s /\ lookup k b = Some (VStr s))
  /\ (forall d, dict_wf d ->
        (forall k v, In (k, v) d ->
                     (exists s, prepares v s) \/ (exists msg, refused v msg)) ->
        (exists k v msg, In (k, v) d /\ refused v msg) ->
        exists k v msg,
          In (k, v) d /\ refused v msg /\
          snd (prepare_batch (VDict d)) = Raise (Exception msg)).
Proof.
  clear loads.
  split; [| split].
  - intros params H. destruct params; try reflexivity.
    exfalso. exact (H d eq_refl).
  - intros d Hwf Hok.
    destruct (prepare_loop_accepted (sorted (keys d)) [] d []
                (sorted_NoDup _ Hwf) (accepted_by_key d Hwf Hok))
      as (params' & b & Hrun & _ & _ & _ & Hb & _ & Hbk).
    rewrite app_nil_r in Hrun. exists b.
    unfold prepare_batch. rewrite Hrun. simpl.
    assert (Hkeys : keys b = sorted (keys d)) by (apply Hbk; simpl; tauto).
    split; [reflexivity | split; [exact Hkeys | split]].
    + intro k. rewrite Hkeys. apply sorted_In.
    + intros k v Hin. destruct (Hok k v Hin) as (s & Hs).
      exists s. split; [exact Hs |].
      apply (Hb k v s); auto.
      * apply sorted_In. apply (in_map fst) in Hin. exact Hin.
      * apply In_lookup; assumption.
  - intros d Hwf Hall (k0 & v0 & msg0 & Hin0 & Hr0).
    destruct (prepare_loop_some_refused (sorted (keys d)) d []
                (sorted_NoDup _ Hwf))
      as (k & v & msg & Hk & Hl & Hr & Hrun).
    + intros k Hk. apply (proj1 (sorted_In _ _)) in Hk.
      destruct (lookup k d) as [v |] eqn:El.
      * exists v. split; [reflexivity |].
        apply (Hall k v). apply lookup_Some_In. exact El.
      * apply lookup_None in El. contradiction.
    + exists k0, v0, msg0. split; [| split; [| exact Hr0]].
      * apply sorted_In. apply (in_map fst) in Hin0. exact Hin0.
      * apply In_lookup; assumption.
    + exists k, v, msg. split; [| split; [exact Hr |]].
      * apply lookup_Some_In. exact Hl.
      * unfold prepare_batch.
        destruct (prepare_loop (sorted (keys d)) d []). exact Hrun.
Qed.

(** C10. [prepare_batch] mutates its argument: on a well-formed command
    map (every value a list that starts with a method name other than
    ["batch"] and goes on with encodable elements), when it returns, the
    caller's map holds under every request-id the former list without its
    first element; no value is what it was. *)
Theorem prepare_batch_pops_methods (d : dict) :
  dict_wf d ->
  (forall k v, In (k, v) d -> exists s, prepares v s) ->
  exists b,
    prepare_batch (VDict d)
      = (VDict (map (fun kv => (fst kv, pop_first (snd kv))) d), Ret b) /\
    forall k v, In (k, v) d ->
      exists m rest,
        v = VList (m :: rest) /\
        lookup k (map (fun kv => (fst kv, pop_first (snd kv))) d)
          = Some (VList rest) /\
        VList rest <> v.
Proof.
  intros Hwf Hok.
  destruct (prepare_loop_accepted (sorted (keys d)) [] d []
              (sorted_NoDup _ Hwf) (accepted_by_key d Hwf Hok))
    as (params' & b & Hrun & Hkeys & Hin & Hout & _).
  rewrite app_nil_r in Hrun. exists b. split.
  - unfold prepare_batch. rewrite Hrun. simpl. do 2 f_equal.
    apply dict_ext.
    + unfold dict_wf. rewrite Hkeys. exact Hwf.
    + rewrite Hkeys, keys_map_values. reflexivity.
    + intro k. rewrite lookup_map_values.
      destruct (in_dec string_dec k (sorted (keys d))) as [Hk | Hk].
      * apply Hin. exact Hk.
      * rewrite (Hout k Hk).
        assert (Hn : lookup k d = None).
        { apply lookup_None. intro H. apply Hk. apply sorted_In. exact H. }
        rewrite Hn. reflexivity.
  - intros k v Hkv. destruct (Hok k v Hkv) as (s & Hs).
    destruct Hs as [m rest us Hm Hus]. exists (VStr m), rest.
    split; [reflexivity | split].
    + rewrite lookup_map_values, (In_lookup d k _ Hwf Hkv). reflexivity.
    + intro H. injection H as H. exact (list_neq_cons _ _ H).
Qed.

(** ** [refresh_tokens] *)

(** A response that is not JSON, or a decoded mapping without
    [access_token]: the failure result, tokens as they were. *)
Lemma refresh_tokens_undecodable (st : state) (text : string) :
  post (trace st) (oauth_request (self st)) = Response text ->
  loads text = None ->
  refresh_tokens st
    = (Ret (oauth_failure text), record st (Sent (oauth_request (self st)))).
Proof.
  intros Hp Hl. unfold refresh_tokens. fold (oauth_request (self st)).
  rewrite Hp, Hl. reflexivity.
Qed.

Lemma refresh_tokens_no_access_token (st : state) (text : string) (d : dict) :
  post (trace st) (oauth_request (self st)) = Response text ->
  loads text = Some (VDict d) ->
  lookup "access_token" d = None ->
  refresh_tokens st
    = (Ret (oauth_failure text), record st (Sent (oauth_request (self st)))).
Proof.
  intros Hp Hl Ha. unfold refresh_tokens. fold (oauth_request (self st)).
  rewrite Hp, Hl. cbn [getitem]. rewrite Ha. reflexivity.
Qed.



(** A refresh that returns a failure result has sent its one request and
    nothing else. *)
Lemma refresh_tokens_failure_posts (st st2 : state) (failure : value) :
  refresh_tokens st = (Ret failure, st2) -> failure <> VBool true ->
  trace st2 = (trace st ++ [Sent (oauth_request (self st))])%list.
Proof.
  unfold refresh_tokens. fold (oauth_request (self st)).
  repeat break_match; intro H; inversion H; subst; intro Hf;
    try reflexivity; try discriminate; try congruence.
Qed.

(** ** The retry of [call] after a token refresh *)

Lemma posts_app (t1 t2 : list event) :
  posts (t1 ++ t2) = (posts t1 ++ posts t2)%list.
Proof. unfold posts. apply filter_app. Qed.

(** Preparation is not repeated on the same [params1]. *)
Lemma prepare_call_again (m : string) (p1 p1' : option dict) :
  prepare_call m p1 = (p1', Ret tt) -> prepare_call m p1' = (p1', Ret tt).
Proof.
  unfold prepare_call.
  destruct (String.eqb m "batch") eqn:Em.
  - destruct p1 as [p |]; [| discriminate].
    destruct (has_key "prepared" p) eqn:Hk.
    + intro H. injection H as <-. rewrite Hk. reflexivity.
    + destruct (lookup "cmd" p) as [cmd |]; [| discriminate].
      destruct (prepare_batch cmd) as [cmd' r].
      destruct r; try discriminate.
      intro H. injection H as <-.
      unfold has_key. rewrite lookup_dict_set_eq. reflexivity.
  - intro H. injection H as <-. reflexivity.
Qed.

Lemma prepare_call_other (m : string) (p1 p1' : option dict) (r : res unit) :
  m <> "batch" -> prepare_call m p1 = (p1', r) -> p1' = p1 /\ r = Ret tt.
Proof.
  unfold prepare_call. intro Hm. apply String.eqb_neq in Hm. rewrite Hm.
  intro H. injection H as <- <-. auto.
Qed.

(** A round of [call] whose response carries no error that is retried. *)
Lemma call_final (fuel : nat) (st : state) (m : string)
  (p1 p2 p3 p4 p1' : option dict) (body : string) (result : value) :
  m <> "" ->
  prepare_call m p1 = (p1', Ret tt) ->
  encode_slots [p1'; p2; p3; p4; auth_slot (self st)] "" = Ret body ->
  decode_reply (post (trace st) (api_request (self st) m body)) = Ret result ->
  error_in result ["NO_AUTH_FOUND"; "expired_token"] = Ret false ->
  error_in result ["QUERY_LIMIT_EXCEEDED"] = Ret false ->
  call fuel st (VStr m) p1 p2 p3 p4
    = (Ret result, record st (Sent (api_request (self st) m body)), p1').
Proof.
  intros Hm Hp He Hd H1 H2. apply String.eqb_neq in Hm.
  unfold api_request in *.
  destruct fuel; cbn [call]; rewrite Hm, Hp, He, Hd, H1, H2; reflexivity.
Qed.


(** ** Merging the response of a chunk *)

Lemma mergeable_keys (acc acc' : list (string * dict)) (kv : string * value) :
  keys acc' = keys acc -> mergeable acc kv -> mergeable acc' kv.
Proof.
  unfold mergeable. intros Hk H.
  destruct (snd kv) as [| | | s | l | d]; auto.
  destruct d; auto.
  apply has_key_true. rewrite Hk. apply has_key_true. exact H.
Qed.

(** The merging loop over the entries [l] of the response's result [tr]. *)
Lemma merge_loop_entries (tr : dict) :
  dict_wf tr ->
  forall (l : dict) (acc : list (string * dict)),
    (forall kv, In kv l -> In kv tr) -> dict_wf l ->
    Forall (mergeable acc) l ->
    exists acc',
      merge_loop (VDict tr) (map VStr (keys l)) acc = Ret acc' /\
      keys acc' = keys acc /\
      forall i, lookup i acc'
                = option_map (merged_entry (lookup i l)) (lookup i acc).
Proof.
  intros Hwf l. induction l as [| [k x] l IH]; intros acc Hsub Hnd Hm.
  - exists acc. simpl. repeat split; auto.
    intro i. destruct (lookup i acc); reflexivity.
  - inversion Hnd as [| ? ? Hnotin Hnd']; subst.
    inversion Hm as [| ? ? Hx Hm']; subst.
    assert (Hl : lookup k tr = Some x)
      by (apply In_lookup; [exact Hwf | apply Hsub; left; reflexivity]).
    assert (Hsub' : forall kv, In kv l -> In kv tr)
      by (intros kv H; apply Hsub; right; exact H).
    assert (Hkl : lookup k l = None) by (apply lookup_None; exact Hnotin).
    assert (Hskip :
      len x = Ret 0 ->
      exists acc',
        merge_loop (VDict tr) (map VStr (keys ((k, x) :: l))) acc = Ret acc' /\
        keys acc' = keys acc /\
        forall i, lookup i acc' = option_map (merged_entry (lookup i l)) (lookup i acc)).
    { intro Hlen. destruct (IH acc Hsub' Hnd' Hm') as (acc' & Hrun & Hk & Hlk).
      exists acc'. split; [| split; assumption].
      simpl. rewrite Hl. simpl. rewrite Hlen. simpl. exact Hrun. }
    unfold mergeable in Hx. simpl in Hx.
    destruct x as [| | | s | lx | dx]; try contradiction.
    + destruct s; [| contradiction].
      destruct (Hskip eq_refl) as (acc' & Hrun & Hk & Hlk).
      exists acc'. repeat split; auto.
      intro i. rewrite Hlk. simpl.
      destruct (String.eqb i k) eqn:E; [| reflexivity].
      apply String.eqb_eq in E. subst i. rewrite Hkl.
      destruct (lookup k acc); reflexivity.
    + destruct lx; [| contradiction].
      destruct (Hskip eq_refl) as (acc' & Hrun & Hk & Hlk).
      exists acc'. repeat split; auto.
      intro i. rewrite Hlk. simpl.
      destruct (String.eqb i k) eqn:E; [| reflexivity].
      apply String.eqb_eq in E. subst i. rewrite Hkl.
      destruct (lookup k acc); reflexivity.
    + destruct dx as [| e dx].
      * destruct (Hskip eq_refl) as (acc' & Hrun & Hk & Hlk).
        exists acc'. repeat split; auto.
        intro i. rewrite Hlk. simpl.
        destruct (String.eqb i k) eqn:E; [| reflexivity].
      apply String.eqb_eq in E. subst i. rewrite Hkl.
      destruct (lookup k acc); reflexivity.
      * unfold has_key in Hx.
        destruct (lookup k acc) as [y |] eqn:Hy; [| discriminate].
        set (acc1 := dict_set acc k (dict_update (e :: dx) y)).
        assert (Hk1 : keys acc1 = keys acc)
          by (apply keys_dict_set_old; eapply lookup_Some_key; eauto).
        destruct (IH acc1 Hsub' Hnd') as (acc' & Hrun & Hk & Hlk).
        { eapply Forall_impl; [| exact Hm'].
          intros kv. apply mergeable_keys. exact Hk1. }
        exists acc'. split; [| split].
        -- simpl. rewrite Hl. simpl. rewrite Hy. simpl. exact Hrun.
        -- congruence.
        -- intro i. rewrite Hlk. unfold acc1. rewrite lookup_dict_set. simpl.
           destruct (String.eqb i k) eqn:E.
           ++ apply String.eqb_eq in E. subst i. rewrite Hkl, Hy. reflexivity.
           ++ reflexivity.
Qed.

(** The merge of a chunk response whose result is a mapping of mergeable
    sub-maps. *)
Lemma merge_chunk_entries (temp : value) (tr : dict)
  (acc : list (string * dict)) :
  getitem temp (VStr "result") = Ret (VDict tr) ->
  dict_wf tr -> Forall (mergeable acc) tr ->
  exists acc',
    merge_chunk temp acc = Ret acc' /\
    keys acc' = keys acc /\
    forall i, lookup i acc'
              = option_map (merged_entry (lookup i tr)) (lookup i acc).
Proof.
  intros Hg Hwf Hm. unfold merge_chunk. rewrite Hg. simpl.
  apply merge_loop_entries; auto.
Qed.

(** ** The loop of [batch] *)

Lemma chunk_of_app (cmd : dict) (l1 l2 : list string) :
  chunk_of cmd (l1 ++ l2) = (chunk_of cmd l1 ++ chunk_of cmd l2)%list.
Proof.
  induction l1 as [| k l1 IH]; simpl; [reflexivity |].
  destruct (lookup k cmd); simpl; congruence.
Qed.

Lemma keys_chunk_of (cmd : dict) (ids : list string) :
  (forall k, In k ids -> In k (keys cmd)) -> keys (chunk_of cmd ids) = ids.
Proof.
  induction ids as [| k ids IH]; intro H; simpl; [reflexivity |].
  destruct (lookup k cmd) eqn:E.
  - simpl. f_equal. apply IH. intros k' Hk'. apply H. right. exact Hk'.
  - apply lookup_None in E. exfalso. apply E. apply H. left. reflexivity.
Qed.

Lemma lookup_chunk_of (cmd : dict) (ids : list string) (k : string) :
  In k ids -> lookup k (chunk_of cmd ids) = lookup k cmd.
Proof.
  clear loads.
  induction ids as [| i ids IH]; simpl; [tauto |].
  intros [-> | H].
  - destruct (lookup k cmd) eqn:E.
    + simpl. rewrite String.eqb_refl. reflexivity.
    + destruct (in_dec string_dec k ids) as [Hin | Hnot]; [rewrite IH; auto |].
      apply lookup_None. intro Hk.
      assert (Hsub : forall l, incl (keys (chunk_of cmd l)) l).
      { clear. induction l as [| a l IHl]; simpl; [apply incl_refl |].
        destruct (lookup a cmd); simpl.
        - intros x [<- | Hx]; [left; reflexivity | right; apply IHl; exact Hx].
        - intros x Hx. right. apply IHl. exact Hx. }
      apply Hnot. apply (Hsub ids). exact Hk.
  - destruct (lookup i cmd) eqn:E.
    + simpl. destruct (String.eqb k i) eqn:Ek.
      * apply String.eqb_eq in Ek. subst. congruence.
      * auto.
    + auto.
Qed.

(** Requests that join the pending chunk without completing it. *)
Lemma batch_loop_fill (fuel : nat) (cmd : dict) (halt : value)
  (rest : list string) (acc : list (string * dict)) (st : state) :
  forall (pre : list string) (count : nat) (batch : dict),
    NoDup (keys batch ++ pre) ->
    (forall k, In k pre -> In k (keys cmd)) ->
    length batch + length pre < 49 ->
    count + length pre < length cmd ->
    batch_loop fuel cmd halt (pre ++ rest) count batch acc st
      = batch_loop fuel cmd halt rest (count + length pre)
          (batch ++ chunk_of cmd pre) acc st.
Proof.
  induction pre as [| k pre IH]; intros count batch Hnd Hin H49 Hcount.
  - simpl. rewrite Nat.add_0_r, app_nil_r. reflexivity.
  - simpl app. cbn [batch_loop].
    destruct (lookup k cmd) as [v |] eqn:El.
    2:{ apply lookup_None in El. exfalso. apply El, Hin. left. reflexivity. }
    assert (Hk : ~ In k (keys batch)).
    { apply NoDup_remove_2 in Hnd. intro H. apply Hnd.
      apply in_or_app. left. exact H. }
    rewrite (dict_set_new batch k v Hk).
    simpl in H49, Hcount.
    assert (E1 : Nat.eqb (length (batch ++ [(k, v)])) 49 = false)
      by (apply Nat.eqb_neq; rewrite length_app; simpl; lia).
    assert (E2 : Nat.eqb (S count) (length cmd) = false)
      by (apply Nat.eqb_neq; lia).
    rewrite E1, E2. cbn [orb].
    rewrite IH.
    + rewrite <- app_assoc. simpl. f_equal. lia.
    + unfold keys. rewrite map_app. simpl. rewrite <- app_assoc. simpl.
      fold (keys batch).
      eapply Permutation_NoDup; [| exact Hnd].
      apply Permutation_app_head. reflexivity.
    + intros k' Hk'. apply Hin. right. exact Hk'.
    + rewrite length_app. simpl. lia.
    + lia.
Qed.

(** A whole chunk: its request-ids fill the pending chunk, the last one
    completes it. *)
Lemma batch_loop_chunk (fuel : nat) (cmd : dict) (halt : value)
  (ks rest : list string) (count : nat) (acc : list (string * dict))
  (st : state) :
  ks <> [] -> NoDup ks ->
  (forall k, In k ks -> In k (keys cmd)) ->
  length ks <= 49 -> count + length ks <= length cmd ->
  length ks = 49 \/ count + length ks = length cmd ->
  batch_loop fuel cmd halt (ks ++ rest) count [] acc st
    = chunk_round fuel halt (chunk_of cmd ks) acc st
        (fun acc' st' =>
           batch_loop fuel cmd halt rest (count + length ks) [] acc' st').
Proof.
  intros Hne Hnd Hin H49 Hcount Hfull.
  destruct (exists_last Hne) as (pre & k & ->).
  rewrite length_app in *. simpl in *.
  rewrite <- app_assoc. simpl app.
  rewrite batch_loop_fill.
  - cbn [batch_loop]. simpl app.
    destruct (lookup k cmd) as [v |] eqn:El.
    2:{ apply lookup_None in El. exfalso. apply El, Hin.
        apply in_or_app. right. left. reflexivity. }
    assert (Hkeys : keys (chunk_of cmd pre) = pre).
    { apply keys_chunk_of. intros k' Hk'. apply Hin.
      apply in_or_app. left. exact Hk'. }
    assert (Hk : ~ In k (keys (chunk_of cmd pre))).
    { rewrite Hkeys. apply NoDup_remove_2 in Hnd.
      rewrite app_nil_r in Hnd. exact Hnd. }
    rewrite (dict_set_new _ k v Hk).
    assert (Hlen : length (chunk_of cmd pre ++ [(k, v)]) = length pre + 1).
    { rewrite length_app. simpl. rewrite <- (length_keys (chunk_of cmd pre)).
      rewrite Hkeys. reflexivity. }
    assert (E : Nat.eqb (length (chunk_of cmd pre ++ [(k, v)])) 49
                || Nat.eqb (S (count + length pre)) (length cmd) = true).
    { apply orb_true_iff. rewrite Hlen. destruct Hfull as [H | H].
      - left. apply Nat.eqb_eq. exact H.
      - right. apply Nat.eqb_eq. lia. }
    rewrite E. unfold chunk_round.
    rewrite chunk_of_app. cbn [chunk_of]. rewrite El.
    replace (count + (length pre + 1)) with (S (count + length pre)) by lia.
    reflexivity.
  - simpl. apply NoDup_remove_1 in Hnd. rewrite app_nil_r in Hnd. exact Hnd.
  - intros k' Hk'. apply Hin. apply in_or_app. left. exact Hk'.
  - simpl. lia.
  - lia.
Qed.

Lemma pieces_cons (n fuel : nat) (ids : list string) :
  ids <> [] ->
  pieces n (S fuel) ids = firstn n ids :: pieces n fuel (skipn n ids).
Proof. destruct ids; [contradiction | reflexivity]. Qed.

(** The loop of [batch] does what the spec says: one round per piece of at
    most 49 sorted request-ids. *)
Lemma batch_loop_pieces (fuel : nat) (cmd : dict) (halt : value) (n : nat) :
  forall (ids : list string) (count : nat) (acc : list (string * dict))
         (st : state),
    NoDup ids -> (forall k, In k ids -> In k (keys cmd)) ->
    count + length ids = length cmd -> length ids <= n ->
    batch_loop fuel cmd halt ids count [] acc st
      = run_chunks fuel halt (map (chunk_of cmd) (pieces 49 n ids)) acc st.
Proof.
  induction n as [| n IH]; intros ids count acc st Hnd Hin Hcount Hn.
  - destruct ids; [reflexivity | simpl in Hn; lia].
  - destruct (list_eq_dec string_dec ids []) as [-> | Hne]; [reflexivity |].
    rewrite (pieces_cons 49 n ids Hne). cbn [map run_chunks].
    assert (Hlen : length (firstn 49 ids) = Nat.min 49 (length ids))
      by apply length_firstn.
    assert (Hpos : length ids > 0)
      by (destruct ids; [contradiction | simpl; lia]).
    rewrite <- (firstn_skipn 49 ids) at 1.
    rewrite <- (firstn_skipn 49 ids) in Hnd.
    rewrite batch_loop_chunk.
    + unfold chunk_round.
      destruct (call fuel st (VStr "batch") _ None None None)
        as [[[temp | e |] st'] p]; try reflexivity.
      destruct (merge_chunk temp acc) as [acc' | e |]; try reflexivity.
      apply IH.
      * apply NoDup_app_remove_l in Hnd. exact Hnd.
      * intros k Hk. apply Hin.
        rewrite <- (firstn_skipn 49 ids). apply in_or_app. right. exact Hk.
      * rewrite length_skipn. lia.
      * rewrite length_skipn. lia.
    + intro H.
      assert (H0 : length (firstn 49 ids) = 0) by (rewrite H; reflexivity).
      lia.
    + apply NoDup_app_remove_r in Hnd. exact Hnd.
    + intros k Hk. apply Hin.
      rewrite <- (firstn_skipn 49 ids). apply in_or_app. left. exact Hk.
    + lia.
    + lia.
    + lia.
Qed.

(** [batch] as the spec describes it. *)
Lemma batch_runs_chunks (fuel : nat) (st : state) (params cmd : dict)
  (halt : value) :
  lookup "cmd" params = Some (VDict cmd) ->
  lookup "halt" params = Some halt ->
  dict_wf cmd ->
  batch fuel st params
    = finish (run_chunks fuel halt (chunks cmd) empty_acc st).
Proof.
  intros Hc Hh Hwf. unfold batch, has_key. rewrite Hc, Hh. cbn [negb orb].
  unfold chunks. cbv zeta.
  rewrite <- (batch_loop_pieces fuel cmd halt (length (sorted (keys cmd)))
                (sorted (keys cmd)) 0 empty_acc st).
  - unfold finish.
    destruct (batch_loop fuel cmd halt (sorted (keys cmd)) 0 [] empty_acc st)
      as [[acc | e |] st']; reflexivity.
  - apply sorted_NoDup. exact Hwf.
  - intros k Hk. apply (proj1 (sorted_In _ _)). exact Hk.
  - rewrite sorted_length, length_keys. reflexivity.
  - apply le_n.
Qed.

Lemma pieces_nil (n fuel : nat) : pieces n fuel [] = [].
Proof. destruct fuel; reflexivity. Qed.

Lemma length_chunk_of (cmd : dict) (ids : list string) :
  (forall k, In k ids -> In k (keys cmd)) ->
  length (chunk_of cmd ids) = length ids.
Proof.
  intro H. rewrite <- (length_keys (chunk_of cmd ids)).
  rewrite keys_chunk_of; auto.
Qed.

(** C5. On a command map of exactly 120 request-ids (with [halt] present),
    [batch] is the sequence of exactly three invocations
    [call('batch', {halt, cmd: chunk})], each followed by the merge of its
    response, on chunks of 49, 49 and 22 entries; the chunks hold the
    entries of the command map, and their request-ids, one chunk after the
    other, are the sorted request-ids of the map.  (A fault raised by an
    invocation or by a merge ends the sequence there.) *)
Theorem batch_120_three_chunks (fuel : nat) (st : state) (params cmd : dict)
  (halt : value) :
  lookup "cmd" params = Some (VDict cmd) ->
  lookup "halt" params = Some halt ->
  dict_wf cmd ->
  length cmd = 120 ->
  let ids := sorted (keys cmd) in
  let c1 := chunk_of cmd (firstn 49 ids) in
  let c2 := chunk_of cmd (firstn 49 (skipn 49 ids)) in
  let c3 := chunk_of cmd (skipn 98 ids) in
  batch fuel st params
    = finish (run_chunks fuel halt [c1; c2; c3] empty_acc st) /\
  length c1 = 49 /\ length c2 = 49 /\ length c3 = 22 /\
  (keys c1 ++ keys c2 ++ keys c3)%list = ids /\
  Sorted (fun a b => str_le a b = true) ids /\
  Permutation ids (keys cmd) /\
  (forall c k, In c [c1; c2; c3] -> In k (keys c) ->
               lookup k c = lookup k cmd).
Proof.
  intros Hc Hh Hwf Hlen ids c1 c2 c3.
  assert (Hids : length ids = 120)
    by (unfold ids; rewrite sorted_length, length_keys; exact Hlen).
  assert (Hin : forall l k, incl l ids -> In k l -> In k (keys cmd)).
  { intros l k Hl Hk. apply (proj1 (sorted_In _ _)). apply Hl. exact Hk. }
  assert (H1 : incl (firstn 49 ids) ids).
  { intros k Hk. rewrite <- (firstn_skipn 49 ids).
    apply in_or_app. left. exact Hk. }
  assert (H2' : incl (skipn 49 ids) ids).
  { intros k Hk. rewrite <- (firstn_skipn 49 ids).
    apply in_or_app. right. exact Hk. }
  assert (H2 : incl (firstn 49 (skipn 49 ids)) ids).
  { intros k Hk. apply H2'. rewrite <- (firstn_skipn 49 (skipn 49 ids)).
    apply in_or_app. left. exact Hk. }
  assert (H3 : incl (skipn 98 ids) ids).
  { intros k Hk. rewrite <- (firstn_skipn 98 ids).
    apply in_or_app. right. exact Hk. }
  assert (Hs2 : skipn 49 (skipn 49 ids) = skipn 98 ids)
    by (rewrite skipn_skipn; reflexivity).
  assert (Hk1 : keys c1 = firstn 49 ids)
    by (apply keys_chunk_of; intros k; apply Hin; exact H1).
  assert (Hk2 : keys c2 = firstn 49 (skipn 49 ids))
    by (apply keys_chunk_of; intros k; apply Hin; exact H2).
  assert (Hk3 : keys c3 = skipn 98 ids)
    by (apply keys_chunk_of; intros k; apply Hin; exact H3).
  split; [| split; [| split; [| split; [| split; [| split; [| split]]]]]].
  - rewrite (batch_runs_chunks fuel st params cmd halt Hc Hh Hwf).
    do 2 f_equal. unfold chunks. fold ids. cbv zeta. rewrite Hids.
    rewrite (pieces_cons 49 119 ids)
      by (intro E; rewrite E in Hids; discriminate).
    rewrite (pieces_cons 49 118 (skipn 49 ids)).
    2:{ intro E. apply (f_equal (@length string)) in E.
        rewrite length_skipn, Hids in E. discriminate. }
    rewrite Hs2.
    rewrite (pieces_cons 49 117 (skipn 98 ids)).
    2:{ intro E. apply (f_equal (@length string)) in E.
        rewrite length_skipn, Hids in E. discriminate. }
    assert (He : skipn 49 (skipn 98 ids) = []).
    { apply skipn_all2. rewrite length_skipn, Hids. apply Nat.leb_le. reflexivity. }
    rewrite He, pieces_nil.
    rewrite (@firstn_all2 string 49 (skipn 98 ids))
      by (rewrite length_skipn, Hids; apply Nat.leb_le; reflexivity).
    reflexivity.
  - unfold c1. rewrite length_chunk_of by (intros k; apply Hin; exact H1).
    rewrite length_firstn, Hids. reflexivity.
  - unfold c2. rewrite length_chunk_of by (intros k; apply Hin; exact H2).
    rewrite length_firstn, length_skipn, Hids. reflexivity.
  - unfold c3. rewrite length_chunk_of by (intros k; apply Hin; exact H3).
    rewrite length_skipn, Hids. reflexivity.
  - rewrite Hk1, Hk2, Hk3, <- Hs2.
    rewrite (firstn_skipn 49 (skipn 49 ids)). apply firstn_skipn.
  - apply sorted_is_sorted.
  - apply sorted_perm.
  - intros c k Hc' Hk.
    assert (Hgen : forall l, In k (keys (chunk_of cmd l)) ->
                             (forall x, In x l -> In x (keys cmd)) ->
                             lookup k (chunk_of cmd l) = lookup k cmd).
    { intros l Hkl Hl. apply lookup_chunk_of.
      rewrite keys_chunk_of in Hkl by exact Hl. exact Hkl. }
    destruct Hc' as [<- | [<- | [<- | []]]]; apply Hgen; auto;
      intros x; apply Hin; assumption.
Qed.

(** ** What [call] returns *)

Lemma decode_reply_origin (r : reply) (v : value) :
  decode_reply r = Ret v ->
  (exists text, loads text = Some v) \/ (exists msg, v = error_dict msg).
Proof.
  unfold decode_reply.
  repeat break_match; intro H; inversion H; subst; eauto.
Qed.

Lemma refresh_tokens_result (st st2 : state) (v : value) :
  refresh_tokens st = (Ret v, st2) ->
  v = VBool true \/ exists msg, v = error_dict msg.
Proof.
  unfold refresh_tokens, oauth_handler, oauth_failure.
  repeat break_match; intro H; inversion H; subst; eauto; try discriminate.
Qed.

(** A value returned by [call] is a decoded response or one of the error
    results that the client makes up. *)
Lemma call_result_origin (fuel : nat) :
  forall (st : state) (method : value) (p1 p2 p3 p4 : option dict)
         (v : value) (st' : state) (p' : option dict),
    call fuel st method p1 p2 p3 p4 = (Ret v, st', p') ->
    (exists text, loads text = Some v) \/ (exists msg, v = error_dict msg).
Proof.
  induction fuel as [| fuel IH]; intros st method p1 p2 p3 p4 v st' p';
    cbn [call]; repeat break_match; intro H;
    try discriminate; try (inversion H; subst);
    try solve [ eapply decode_reply_origin; eassumption
              | eapply IH; eassumption ];
    match goal with
    | Hr : refresh_tokens _ = (Ret ?f, _) |- _ =>
        destruct (refresh_tokens_result _ _ _ Hr) as [E | E];
        [discriminate E || (inversion E) | right; exact E]
    end.
Qed.

(** ** What the merge leaves alone *)

Lemma bind_Ret {A B : Type} (m : res A) (k : A -> res B) (b : B) :
  bind m k = Ret b -> exists a, m = Ret a /\ k a = Ret b.
Proof. destruct m; simpl; intro H; try discriminate. eauto. Qed.

(** The loop never adds or removes a name of the accumulator. *)
Lemma merge_loop_keys (tr : value) (items : list value) :
  forall acc acc', merge_loop tr items acc = Ret acc' -> keys acc' = keys acc.
Proof.
  induction items as [| i items IH]; intros acc acc'; cbn [merge_loop].
  - intro H. injection H as <-. reflexivity.
  - intro H.
    apply bind_Ret in H. destruct H as (x & _ & H).
    apply bind_Ret in H. destruct H as (n & _ & H).
    destruct (Nat.ltb 0 n); [| eauto].
    apply bind_Ret in H. destruct H as (y & Hy & H).
    apply bind_Ret in H. destruct H as (z & _ & H).
    destruct i; try discriminate.
    apply IH in H. rewrite H. apply keys_dict_set_old.
    simpl in Hy. destruct (lookup s acc) eqn:E; [| discriminate].
    eapply lookup_Some_key; eauto.
Qed.

(** An entry of the accumulator whose sub-map in the response is empty or
    missing stays as it is. *)
Lemma merge_loop_untouched (tr : value) (i : string) (items : list value) :
  (forall x, getitem tr (VStr i) = Ret x -> len x = Ret 0) ->
  forall acc acc',
    merge_loop tr items acc = Ret acc' -> lookup i acc' = lookup i acc.
Proof.
  intro Hq. induction items as [| j items IH]; intros acc acc';
    cbn [merge_loop].
  - intro H. injection H as <-. reflexivity.
  - intro H.
    apply bind_Ret in H. destruct H as (x & Hx & H).
    apply bind_Ret in H. destruct H as (n & Hn & H).
    destruct (Nat.ltb 0 n) eqn:En; [| eauto].
    apply bind_Ret in H. destruct H as (y & Hy & H).
    apply bind_Ret in H. destruct H as (z & _ & H).
    destruct j; try discriminate.
    apply IH in H. rewrite H. apply lookup_dict_set_ne.
    intro E. subst s. rewrite (Hq x Hx) in Hn. injection Hn as <-.
    discriminate.
Qed.

Lemma merge_chunk_untouched (temp : value) (i : string)
  (acc acc' : list (string * dict)) :
  quiet i temp -> merge_chunk temp acc = Ret acc' ->
  lookup i acc' = lookup i acc.
Proof.
  unfold merge_chunk. intros Hq H.
  apply bind_Ret in H. destruct H as (tr & Htr & H).
  apply bind_Ret in H. destruct H as (items & _ & H).
  eapply merge_loop_untouched; [| exact H].
  intros x Hx. exact (Hq tr x Htr Hx).
Qed.

(** Through a whole run of [batch]: an entry stays as it is when no
    chunk response of the run has anything under its name. *)
Lemma run_chunks_untouched (fuel : nat) (halt : value) (i : string) :
  forall (chs : list dict) (acc acc' : list (string * dict))
         (st st' : state),
    Forall (quiet i) (responses fuel halt chs acc st) ->
    run_chunks fuel halt chs acc st = (Ret acc', st') ->
    lookup i acc' = lookup i acc.
Proof.
  induction chs as [| c chs IH]; intros acc acc' st st' Hq;
    cbn [run_chunks responses] in *.
  - intro H. injection H as <- _. reflexivity.
  - unfold chunk_round.
    destruct (call fuel st (VStr "batch") _ None None None)
      as [[[temp | e |] st1] p]; try discriminate.
    inversion Hq as [| ? ? Hq1 Hq2]; subst.
    destruct (merge_chunk temp acc) as [acc1 | e |] eqn:Hm;
      try discriminate.
    intro H. rewrite (IH _ _ _ _ Hq2 H).
    exact (merge_chunk_untouched _ _ _ _ Hq1 Hm).
Qed.

(** ** What the merge never overwrites *)

Lemma keeps_stored_refl (acc : list (string * dict)) : keeps_stored acc acc.
Proof. intros i y k v Hi Hk. eauto. Qed.

Lemma keeps_stored_trans (a b c : list (string * dict)) :
  keeps_stored a b -> keeps_stored b c -> keeps_stored a c.
Proof.
  intros Hab Hbc i y k v Hi Hk.
  destruct (Hab i y k v Hi Hk) as (y' & Hi' & Hk'). eauto.
Qed.

(** The merging loop keeps every stored value, whatever the response
    holds under the same key. *)
Lemma merge_loop_keeps (tr : value) (items : list value) :
  (forall i x, getitem tr (VStr i) = Ret (VDict x) -> dict_wf x) ->
  forall acc acc',
    acc_wf acc -> merge_loop tr items acc = Ret acc' ->
    acc_wf acc' /\ keeps_stored acc acc'.
Proof.
  intro Hwf. induction items as [| j items IH]; intros acc acc' Hacc;
    cbn [merge_loop].
  - intro H. injection H as <-. split; [exact Hacc | apply keeps_stored_refl].
  - intro H.
    apply bind_Ret in H. destruct H as (x & Hx & H).
    apply bind_Ret in H. destruct H as (n & Hn & H).
    destruct (Nat.ltb 0 n) eqn:En; [| eauto].
    apply bind_Ret in H. destruct H as (y0 & Hy0 & H).
    apply bind_Ret in H. destruct H as (z & Hz & H).
    destruct j as [| | | s | |]; try discriminate.
    destruct x as [| | | | | dx]; try discriminate.
    injection Hz as <-.
    simpl in Hy0. destruct (lookup s acc) as [y1 |] eqn:Hs; [| discriminate].
    injection Hy0 as ->.
    assert (Hdx : dict_wf dx) by (apply (Hwf s); exact Hx).
    assert (Hacc1 : acc_wf (dict_set acc s (dict_update dx y0))).
    { intros i y Hi. rewrite lookup_dict_set in Hi.
      destruct (String.eqb i s).
      - injection Hi as <-. apply dict_update_wf. exact Hdx.
      - exact (Hacc i y Hi). }
    destruct (IH _ _ Hacc1 H) as (Hacc' & Hkeep).
    split; [exact Hacc' |].
    apply (keeps_stored_trans _ (dict_set acc s (dict_update dx y0)));
      [| exact Hkeep].
    intros i y k v Hi Hk. rewrite lookup_dict_set.
    destruct (String.eqb i s) eqn:E.
    + apply String.eqb_eq in E. subst i.
      rewrite Hs in Hi. injection Hi as <-.
      exists (dict_update dx y0). split; [reflexivity |].
      rewrite lookup_dict_update by (apply (Hacc s); exact Hs).
      rewrite Hk. reflexivity.
    + eauto.
Qed.

Lemma merge_chunk_keeps (temp : value) (acc acc' : list (string * dict)) :
  wf_response temp -> acc_wf acc -> merge_chunk temp acc = Ret acc' ->
  acc_wf acc' /\ keeps_stored acc acc'.
Proof.
  unfold merge_chunk. intros Hwf Hacc H.
  apply bind_Ret in H. destruct H as (tr & Htr & H).
  apply bind_Ret in H. destruct H as (items & _ & H).
  eapply merge_loop_keeps; [| exact Hacc | exact H].
  intros i x Hx. exact (Hwf tr i x Htr Hx).
Qed.

Lemma wf_response_error_dict (msg : string) : wf_response (error_dict msg).
Proof. intros tr i x H. discriminate. Qed.

(** Through the whole loop of [batch]: what a chunk has stored, no later
    chunk overwrites. *)
Lemma batch_loop_keeps (fuel : nat) (cmd : dict) (halt : value) :
  (forall text v, loads text = Some v -> wf_response v) ->
  forall (ids : list string) (count : nat) (batch : dict)
         (acc acc' : list (string * dict)) (st st' : state),
    acc_wf acc ->
    batch_loop fuel cmd halt ids count batch acc st = (Ret acc', st') ->
    acc_wf acc' /\ keeps_stored acc acc'.
Proof.
  intro Hq. induction ids as [| k ids IH];
    intros count batch acc acc' st st' Hacc; cbn [batch_loop].
  - intro H. injection H as <- _. split; [exact Hacc | apply keeps_stored_refl].
  - destruct (lookup k cmd) as [v |]; [| discriminate].
    destruct (_ || _).
    + destruct (call fuel st (VStr "batch") _ None None None)
        as [[[temp | e |] st1] p] eqn:Hcall; try discriminate.
      destruct (merge_chunk temp acc) as [acc1 | e |] eqn:Hm;
        try discriminate.
      intro H.
      assert (Htemp : wf_response temp).
      { destruct (call_result_origin _ _ _ _ _ _ _ _ _ _ Hcall)
          as [(text & Ht) | (msg & ->)].
        - exact (Hq text temp Ht).
        - apply wf_response_error_dict. }
      destruct (merge_chunk_keeps temp acc acc1 Htemp Hacc Hm) as (Hacc1 & Hk1).
      destruct (IH _ _ _ _ _ _ Hacc1 H) as (Hacc' & Hk').
      split; [exact Hacc' |].
      exact (keeps_stored_trans _ _ _ Hk1 Hk').
    + apply IH. exact Hacc.
Qed.

(** C1, as amended.  When the response of a chunk holds, under a name [i]
    that the accumulator knows, a non-empty mapping [x], the accumulator's
    entry [i] becomes the shallow merge [merge_two_dicts(x, entry)]: the
    second operand is the accumulator's entry, so under every key that
    both hold the value already stored is kept, and the response only adds
    the keys that are new.  An empty sub-map leaves the entry as it is.
    And so through the whole loop of [batch]: a value that one chunk has
    stored under a key is not overwritten by any later chunk. *)
Theorem merge_chunk_accumulator_wins :
  (forall temp tr acc,
      getitem temp (VStr "result") = Ret (VDict tr) ->
      dict_wf tr -> Forall (mergeable acc) tr ->
      exists acc',
        merge_chunk temp acc = Ret acc' /\
        (forall i x y,
            lookup i tr = Some (VDict x) -> x <> [] ->
            lookup i acc = Some y -> dict_wf y ->
            merge_two_dicts (VDict x) y = Ret (dict_update x y) /\
            lookup i acc' = Some (dict_update x y) /\
            (forall k v, lookup k y = Some v ->
                         lookup k (dict_update x y) = Some v) /\
            (forall k, lookup k y = None ->
                       lookup k (dict_update x y) = lookup k x)) /\
        (forall i, lookup i tr = Some (VDict []) ->
                   lookup i acc' = lookup i acc))
  /\
  (forall fuel cmd halt ids count batch acc acc' st st',
      (forall text v, loads text = Some v -> wf_response v) ->
      acc_wf acc ->
      batch_loop fuel cmd halt ids count batch acc st = (Ret acc', st') ->
      keeps_stored acc acc').
Proof.
  split.
  - intros temp tr acc Hg Hwf Hm.
    destruct (merge_chunk_entries temp tr acc Hg Hwf Hm)
      as (acc' & Hrun & _ & Hl).
    exists acc'. split; [exact Hrun | split].
    + intros i x y Hx Hne Hy Hwy.
      split; [reflexivity | split; [| split]].
      * rewrite Hl, Hx, Hy. simpl. destruct x; [contradiction | reflexivity].
      * intros k v Hk. rewrite lookup_dict_update by exact Hwy.
        rewrite Hk. reflexivity.
      * intros k Hk. rewrite lookup_dict_update by exact Hwy.
        rewrite Hk. reflexivity.
    + intros i Hi. rewrite Hl, Hi. simpl.
      destruct (lookup i acc); reflexivity.
  - intros fuel cmd halt ids count batch acc acc' st st' Hq Hacc Hrun.
    exact (proj2 (batch_loop_keeps fuel cmd halt Hq _ _ _ _ _ _ _ Hacc Hrun)).
Qed.

(** C2, as amended.  For each of [result_error], [result_total] and
    [result_next]: the merging loop of [batch] runs over every sub-map of a
    chunk response, so a non-empty sub-map of that name is merged into the
    accumulator's entry exactly as [result] is; the entry of the mapping
    that [batch] returns is the empty mapping when no chunk response of
    the run holds anything under that name, whatever other responses the
    server could give. *)
Theorem batch_side_maps (i : string) :
  In i ["result_error"; "result_total"; "result_next"] ->
  (forall temp tr acc x y,
      getitem temp (VStr "result") = Ret (VDict tr) ->
      dict_wf tr -> Forall (mergeable acc) tr ->
      lookup i tr = Some (VDict x) -> x <> [] -> lookup i acc = Some y ->
      exists acc',
        merge_chunk temp acc = Ret acc' /\
        lookup i acc' = Some (dict_update x y))
  /\
  (forall fuel st params cmd halt r st',
      lookup "cmd" params = Some (VDict cmd) ->
      lookup "halt" params = Some halt ->
      dict_wf cmd ->
      Forall (quiet i) (responses fuel halt (chunks cmd) empty_acc st) ->
      batch fuel st params = (Ret r, st') ->
      exists acc, r = wrap_acc acc /\ lookup i acc = Some []).
Proof.
  intro Hi. split.
  - intros temp tr acc x y Hg Hwf Hm Hx Hne Hy.
    destruct (merge_chunk_entries temp tr acc Hg Hwf Hm)
      as (acc' & Hrun & _ & Hl).
    exists acc'. split; [exact Hrun |].
    rewrite Hl, Hx, Hy. simpl. destruct x; [contradiction | reflexivity].
  - intros fuel st params cmd halt r st' Hc Hh Hwf Hq.
    rewrite (batch_runs_chunks fuel st params cmd halt Hc Hh Hwf).
    destruct (run_chunks fuel halt (chunks cmd) empty_acc st)
      as [[acc | e |] st1] eqn:Hrun; try discriminate.
    intro H. injection H as <- _. exists acc. split; [reflexivity |].
    rewrite (run_chunks_untouched fuel halt i _ _ _ _ _ Hq Hrun).
    simpl in Hi. destruct Hi as [<- | [<- | [<- | []]]]; reflexivity.
Qed.

(** ** Further properties of [call] *)

Lemma refresh_tokens_identity (st st' : state) (r : res value) :
  refresh_tokens st = (r, st') ->
  client_id (self st') = client_id (self st) /\
  client_secret (self st') = client_secret (self st).
Proof.
  unfold refresh_tokens.
  repeat break_match; intro H; injection H as <- <-; simpl; auto.
Qed.

(** [refresh_tokens] always sends its request. *)
Lemma refresh_tokens_sends (st st' : state) (r : res value) :
  refresh_tokens st = (r, st') ->
  exists rest,
    trace st' = (trace st ++ Sent (oauth_request (self st)) :: rest)%list.
Proof.
  unfold refresh_tokens. fold (oauth_request (self st)).
  repeat break_match; intro H; injection H as <- <-; simpl;
    solve [ exists []; reflexivity
          | eexists; rewrite <- app_assoc; reflexivity ].
Qed.

(** Whatever is kept by recording an event other than a request to the
    OAuth server and by a token refresh, and composes, is kept by [call]
    from its first state to its last. *)
Lemma call_steps (Q : state -> state -> Prop) :
  (forall st, Q st st) ->
  (forall a b c, Q a b -> Q b c -> Q a c) ->
  (forall st e, (forall url params, e <> Sent (PostParams url params)) ->
                Q st (record st e)) ->
  (forall st r st', refresh_tokens st = (r, st') -> Q st st') ->
  forall fuel st method p1 p2 p3 p4,
    Q st (snd (fst (call fuel st method p1 p2 p3 p4))).
Proof.
  intros Hrefl Htrans Hrec Href.
  assert (Hsent : forall st url data t,
             Q st (record st (Sent (PostData url data t))))
    by (intros; apply Hrec; intros; discriminate).
  assert (Hsleep : forall st url data t,
             Q st (record (record (record st (Sent (PostData url data t)))
                                  (Printed "SLEEP =)")) (Slept 2))).
  { intros. eapply Htrans; [apply Hsent |].
    eapply Htrans; apply Hrec; intros; discriminate. }
  induction fuel as [| fuel IH]; intros st method p1 p2 p3 p4;
    destruct method as [| | | m | |]; try apply Hrefl;
    cbn [call]; repeat break_match; simpl;
    first [ apply Hrefl
          | apply Hsent
          | apply Hsleep
          | eapply Htrans; [apply Hsent | eapply Href; eassumption]
          | eapply Htrans; [apply Hsleep | apply IH]
          | eapply Htrans;
            [eapply Htrans; [apply Hsent | eapply Href; eassumption]
            | apply IH] ].
Qed.

(** [call] keeps the connection identity of the client and only adds to
    the trace. *)
Lemma call_identity_kept (fuel : nat) (st : state) (method : value)
  (p1 p2 p3 p4 : option dict) :
  let st' := snd (fst (call fuel st method p1 p2 p3 p4)) in
  domain (self st') = domain (self st) /\
  client_id (self st') = client_id (self st) /\
  client_secret (self st') = client_secret (self st) /\
  webhook_key (self st') = webhook_key (self st) /\
  webhook_user (self st') = webhook_user (self st) /\
  exists added, trace st' = (trace st ++ added)%list.
Proof.
  apply (call_steps
           (fun a b =>
              domain (self b) = domain (self a) /\
              client_id (self b) = client_id (self a) /\
              client_secret (self b) = client_secret (self a) /\
              webhook_key (self b) = webhook_key (self a) /\
              webhook_user (self b) = webhook_user (self a) /\
              exists added, trace b = (trace a ++ added)%list)).
  - intro a. repeat (split; [reflexivity |]).
    exists []. rewrite app_nil_r. reflexivity.
  - intros a b c (H1 & H2 & H3 & H4 & H5 & ab & Hab)
                 (G1 & G2 & G3 & G4 & G5 & bc & Hbc).
    repeat (split; [congruence |]).
    exists (ab ++ bc)%list. rewrite Hbc, Hab, app_assoc. reflexivity.
  - intros a e He. simpl. repeat (split; [reflexivity |]).
    exists [e]. reflexivity.
  - intros a r b H.
    destruct (refresh_tokens_frame _ _ _ H) as (ad & Ht & _ & Hd & Hk & Hu).
    destruct (refresh_tokens_identity _ _ _ H) as (Hi & Hs).
    repeat (split; [assumption |]).
    exists ad. exact Ht.
Qed.

(** X1. [call] never writes the connection identity of the client, its
    trace only grows, and the tokens are written by a refresh only: when
    no request went to the OAuth server, the client is the one before. *)
Theorem call_client_frame (fuel : nat) (st : state) (method : value)
  (p1 p2 p3 p4 : option dict) :
  let st' := snd (fst (call fuel st method p1 p2 p3 p4)) in
  domain (self st') = domain (self st) /\
  client_id (self st') = client_id (self st) /\
  client_secret (self st') = client_secret (self st) /\
  webhook_key (self st') = webhook_key (self st) /\
  webhook_user (self st') = webhook_user (self st) /\
  exists added,
    trace st' = (trace st ++ added)%list /\
    ((forall url params, ~ In (Sent (PostParams url params)) added) ->
     self st' = self st).
Proof.
  apply (call_steps
           (fun a b =>
              domain (self b) = domain (self a) /\
              client_id (self b) = client_id (self a) /\
              client_secret (self b) = client_secret (self a) /\
              webhook_key (self b) = webhook_key (self a) /\
              webhook_user (self b) = webhook_user (self a) /\
              exists added,
                trace b = (trace a ++ added)%list /\
                ((forall url params,
                     ~ In (Sent (PostParams url params)) added) ->
                 self b = self a))).
  - intro a. repeat (split; [reflexivity |]).
    exists []. rewrite app_nil_r. auto.
  - intros a b c (H1 & H2 & H3 & H4 & H5 & ab & Hab & Hsab)
                 (G1 & G2 & G3 & G4 & G5 & bc & Hbc & Hsbc).
    repeat (split; [congruence |]).
    exists (ab ++ bc)%list. split.
    + rewrite Hbc, Hab, app_assoc. reflexivity.
    + intro Hno.
      rewrite Hsbc, Hsab; auto;
        intros url params Hin; apply (Hno url params);
        apply in_or_app; auto.
  - intros a e He. simpl. repeat (split; [reflexivity |]).
    exists [e]. auto.
  - intros a r b H.
    destruct (refresh_tokens_frame _ _ _ H) as (ad & Ht & _ & Hd & Hk & Hu).
    destruct (refresh_tokens_identity _ _ _ H) as (Hi & Hs).
    destruct (refresh_tokens_sends _ _ _ H) as (rest & Hsend).
    repeat (split; [assumption |]).
    eexists. split; [exact Hsend |].
    intro Hno. exfalso. eapply Hno. left. reflexivity.
Qed.

(** X2. For a method other than ['batch'], [call] leaves [params1] as it
    got it, whatever happens (retries included). *)
Theorem call_params1_untouched (fuel : nat) :
  forall (st : state) (method : value) (p1 p2 p3 p4 : option dict),
    method <> VStr "batch" ->
    snd (call fuel st method p1 p2 p3 p4) = p1.
Proof.
  induction fuel as [| fuel IH]; intros st method p1 p2 p3 p4 Hm;
    destruct method as [| | | m | |]; try reflexivity;
    assert (Hb : m <> "batch") by congruence;
    cbn [call];
    destruct (String.eqb m ""); try reflexivity;
    destruct (prepare_call m p1) as [p pre] eqn:Hp;
    destruct (prepare_call_other _ _ _ _ Hb Hp) as [-> ->];
    repeat break_match; try reflexivity; apply IH; exact Hm.
Qed.

Lemma refresh_tokens_returns (st st2 : state) (v : value) :
  refresh_tokens st = (Ret v, st2) ->
  v = VBool true \/ exists text, v = oauth_failure text.
Proof.
  unfold refresh_tokens, oauth_handler.
  repeat break_match; intro H; inversion H; subst; eauto; try discriminate.
Qed.

Lemma error_in_oauth_failure (text : string) :
  error_in (oauth_failure text)
           ["NO_AUTH_FOUND"; "expired_token"; "QUERY_LIMIT_EXCEEDED"]
    = Ret false.
Proof. reflexivity. Qed.

Lemma error_in_app (v : value) (l1 l2 : list string) :
  error_in v l1 = Ret false -> error_in v l2 = Ret false ->
  error_in v (l1 ++ l2) = Ret false.
Proof.
  unfold error_in. destruct (contains_str "error" v) as [[|] | e |]; simpl;
    auto; try discriminate.
  destruct (getitem v (VStr "error")) as [x | e |]; simpl; try discriminate.
  intros H1 H2. injection H1 as H1. injection H2 as H2.
  rewrite existsb_app, H1, H2. reflexivity.
Qed.

(** X3. The three error codes that [call] reacts to never reach the caller:
    a value that [call] returns does not carry [NO_AUTH_FOUND],
    [expired_token] or [QUERY_LIMIT_EXCEEDED] under [error]. *)
Theorem call_hides_retried_errors (fuel : nat) :
  forall (st : state) (method : value) (p1 p2 p3 p4 : option dict)
         (v : value) (st' : state) (p' : option dict),
    call fuel st method p1 p2 p3 p4 = (Ret v, st', p') ->
    error_in v ["NO_AUTH_FOUND"; "expired_token"; "QUERY_LIMIT_EXCEEDED"]
      = Ret false.
Proof.
  induction fuel as [| fuel IH]; intros st method p1 p2 p3 p4 v st' p';
    cbn [call]; repeat break_match; intro H;
    try discriminate; try (inversion H; subst);
    try solve [ eapply IH; eassumption
              | apply (error_in_app _ ["NO_AUTH_FOUND"; "expired_token"]
                         ["QUERY_LIMIT_EXCEEDED"]); assumption ];
    match goal with
    | Hr : refresh_tokens _ = (Ret ?f, _) |- _ =>
        destruct (refresh_tokens_returns _ _ _ Hr) as [E | (text & E)];
        [ discriminate E
        | first [ discriminate E
                | rewrite E; apply error_in_oauth_failure
                | inversion E; apply error_in_oauth_failure ] ]
    end.
Qed.

(** X4. A read timeout, a connection failure and a body that is not JSON
    each end [call] with a made-up error result after exactly the one
    request, without any retry, whatever the remaining recursion budget. *)
Theorem call_transport_failures (fuel : nat) (st : state) (m : string)
  (p1 p2 p3 p4 p1' : option dict) (body : string) :
  m <> "" ->
  prepare_call m p1 = (p1', Ret tt) ->
  encode_slots [p1'; p2; p3; p4; auth_slot (self st)] "" = Ret body ->
  let req := api_request (self st) m body in
  (post (trace st) req = Fails ReadTimeout ->
   call fuel st (VStr m) p1 p2 p3 p4
     = (Ret (error_dict "Timeout waiting expired [60 sec]"),
        record st (Sent req), p1')) /\
  (post (trace st) req = Fails ConnectionError ->
   call fuel st (VStr m) p1 p2 p3 p4
     = (Ret (error_dict "Max retries exceeded [10]"),
        record st (Sent req), p1')) /\
  (forall text,
      post (trace st) req = Response text -> loads text = None ->
      call fuel st (VStr m) p1 p2 p3 p4
        = (Ret (error_dict ("Error on decode api response [" ++ text ++ "]")),
           record st (Sent req), p1')).
Proof.
  intros Hm Hp He req. split; [| split].
  - intro H. apply call_final; auto. fold req. rewrite H. reflexivity.
  - intro H. apply call_final; auto. fold req. rewrite H. reflexivity.
  - intros text H Hl. apply call_final; auto.
    fold req. rewrite H. simpl. rewrite Hl. reflexivity.
Qed.

(** X5. A response that carries [QUERY_LIMIT_EXCEEDED] makes [call] print,
    sleep two seconds and call itself again with the same method and
    parameters, the client being as it was; when the answer to that call
    is final, the same request has gone out twice, with the sleep in
    between. *)
Theorem call_rate_limit_retry (fuel : nat) (st : state) (m : string)
  (p1 p2 p3 p4 p1' : option dict) (body : string) (result : value) :
  m <> "" ->
  prepare_call m p1 = (p1', Ret tt) ->
  encode_slots [p1'; p2; p3; p4; auth_slot (self st)] "" = Ret body ->
  let req := api_request (self st) m body in
  decode_reply (post (trace st) req) = Ret result ->
  error_in result ["NO_AUTH_FOUND"; "expired_token"] = Ret false ->
  error_in result ["QUERY_LIMIT_EXCEEDED"] = Ret true ->
  let st2 := record (record (record st (Sent req)) (Printed "SLEEP =)"))
                    (Slept 2) in
  call (S fuel) st (VStr m) p1 p2 p3 p4
    = call fuel st2 (VStr m) p1' p2 p3 p4 /\
  self st2 = self st /\
  forall result2,
    decode_reply (post (trace st2) req) = Ret result2 ->
    error_in result2 ["NO_AUTH_FOUND"; "expired_token"] = Ret false ->
    error_in result2 ["QUERY_LIMIT_EXCEEDED"] = Ret false ->
    exists st3,
      call (S fuel) st (VStr m) p1 p2 p3 p4 = (Ret result2, st3, p1') /\
      self st3 = self st /\
      trace st3 = (trace st ++ [Sent req; Printed "SLEEP =)"; Slept 2;
                                Sent req])%list.
Proof.
  intros Hm Hp He req Hd H1 H2 st2.
  assert (Hstep : call (S fuel) st (VStr m) p1 p2 p3 p4
                  = call fuel st2 (VStr m) p1' p2 p3 p4).
  { pose proof Hm as Hm'. apply String.eqb_neq in Hm'.
    unfold req, api_request in *.
    cbn [call]. rewrite Hm', Hp, He, Hd, H1, H2. reflexivity. }
  split; [exact Hstep | split; [reflexivity |]].
  intros result2 Hd2 G1 G2.
  exists (record st2 (Sent req)). split; [| split].
  - rewrite Hstep.
    exact (call_final fuel st2 m p1' p2 p3 p4 p1' body result2 Hm
             (prepare_call_again _ _ _ Hp) He Hd2 G1 G2).
  - reflexivity.
  - simpl. rewrite <- !app_assoc. reflexivity.
Qed.

(** X6. The retry on [QUERY_LIMIT_EXCEEDED] has no bound: with a server
    that gives that answer to the request every time, [call] uses up any
    recursion budget, sending the request once more for each unit of it. *)
Theorem call_rate_limit_forever (m : string) (p2 p3 p4 p1' : option dict)
  (c : client) (body : string) (result : value) :
  m <> "" ->
  encode_slots [p1'; p2; p3; p4; auth_slot c] "" = Ret body ->
  (forall t, decode_reply (post t (api_request c m body)) = Ret result) ->
  error_in result ["NO_AUTH_FOUND"; "expired_token"] = Ret false ->
  error_in result ["QUERY_LIMIT_EXCEEDED"] = Ret true ->
  forall fuel st p1,
    self st = c ->
    prepare_call m p1 = (p1', Ret tt) ->
    fst (fst (call fuel st (VStr m) p1 p2 p3 p4)) = Diverge /\
    length (posts (trace (snd (fst (call fuel st (VStr m) p1 p2 p3 p4)))))
      = length (posts (trace st)) + S fuel.
Proof.
  intros Hm He Hd H1 H2.
  pose proof Hm as Hm'. apply String.eqb_neq in Hm'.
  induction fuel as [| fuel IH]; intros st p1 Hc Hp; subst c;
    unfold api_request in *; cbn [call];
    rewrite Hm', Hp, He, Hd, H1, H2.
  - simpl. rewrite !posts_app. simpl. rewrite !app_nil_r, length_app.
    simpl. split; [reflexivity | lia].
  - destruct (IH (record (record (record st
                    (Sent (PostData (get_url (self st) m) body timeout)))
                    (Printed "SLEEP =)")) (Slept 2)) p1' eq_refl
                 (prepare_call_again _ _ _ Hp)) as (Hdiv & Hlen).
    split; [exact Hdiv |].
    rewrite Hlen. simpl. rewrite !posts_app. simpl.
    rewrite !app_nil_r, length_app. simpl. lia.
Qed.

(** X7. A parameter mapping that holds ['cmd'] but no ['halt'] makes
    [call] raise while it builds the body, before anything is sent:
    the exception of [encode_cmd] when the commands cannot be encoded
    ([AttributeError] when ['cmd'] is not a mapping), and
    [KeyError('halt')] when they can. *)
Theorem call_cmd_without_halt (fuel : nat) (st : state) (m : string)
  (p1 p2 p3 p4 : option dict) (d : dict) (cmd : value) :
  m <> "" ->
  prepare_call m p1 = (Some d, Ret tt) ->
  lookup "cmd" d = Some cmd ->
  lookup "halt" d = None ->
  (forall e, encode_cmd cmd = Ret e ->
             call fuel st (VStr m) p1 p2 p3 p4
               = (Raise (KeyError (VStr "halt")), st, Some d)) /\
  (forall x, encode_cmd cmd = Raise x ->
             call fuel st (VStr m) p1 p2 p3 p4 = (Raise x, st, Some d)) /\
  ((forall c, cmd <> VDict c) ->
   call fuel st (VStr m) p1 p2 p3 p4 = (Raise AttributeError, st, Some d)).
Proof.
  intros Hm Hp Hc Hh. apply String.eqb_neq in Hm.
  assert (Hs : forall x,
             (exists e, encode_cmd cmd = Ret e /\ x = KeyError (VStr "halt"))
             \/ encode_cmd cmd = Raise x ->
             encode_slots [Some d; p2; p3; p4; auth_slot (self st)] ""
               = Raise x).
  { intros x Hx. cbn [encode_slots encode_slot]. unfold has_key. rewrite Hc.
    cbn [getitem]. rewrite Hc, Hh. cbn [bind].
    destruct Hx as [(e & He & ->) | He]; rewrite He; reflexivity. }
  assert (Hcall : forall x,
             encode_slots [Some d; p2; p3; p4; auth_slot (self st)] ""
               = Raise x ->
             call fuel st (VStr m) p1 p2 p3 p4 = (Raise x, st, Some d)).
  { intros x Hx. destruct fuel; cbn [call]; rewrite Hm, Hp, Hx; reflexivity. }
  split; [| split].
  - intros e He. apply Hcall, Hs. left. eauto.
  - intros x Hx. apply Hcall, Hs. right. exact Hx.
  - intro Hn. apply Hcall, Hs. right.
    destruct cmd; try reflexivity. exfalso. exact (Hn d0 eq_refl).
Qed.

(** ** Further properties of [refresh_tokens] *)

(** X8. When the OAuth response decodes to a mapping that holds both
    tokens, [refresh_tokens] returns [True] after one request, which
    carries the client id, the client secret and the refresh token stored
    so far; [get_tokens] then returns the two tokens of the response, and
    the rest of the client is as it was. *)
Theorem refresh_tokens_stores_tokens (st : state) (text : string) (d : dict)
  (a r : value) :
  post (trace st) (oauth_request (self st)) = Response text ->
  loads text = Some (VDict d) ->
  lookup "access_token" d = Some a ->
  lookup "refresh_token" d = Some r ->
  exists st',
    refresh_tokens st = (Ret (VBool true), st') /\
    get_tokens (self st') = VDict [("auth_token", a); ("refresh_token", r)] /\
    domain (self st') = domain (self st) /\
    client_id (self st') = client_id (self st) /\
    client_secret (self st') = client_secret (self st) /\
    webhook_key (self st') = webhook_key (self st) /\
    webhook_user (self st') = webhook_user (self st) /\
    trace st' = (trace st ++ [Sent (oauth_request (self st));
                              Logged (VList [VStr "Tokens"; a; r])])%list.
Proof.
  intros Hp Hl Ha Hr. eexists. split.
  - unfold refresh_tokens. fold (oauth_request (self st)).
    rewrite Hp, Hl. cbn [getitem]. rewrite Ha, Hr. reflexivity.
  - simpl. rewrite <- app_assoc. repeat split; reflexivity.
Qed.

(** X9. When the OAuth response is not JSON, or decodes to a mapping
    without [access_token], [refresh_tokens] returns its failure result
    with the response text in it, and [get_tokens] returns what it
    returned before. *)
Theorem refresh_tokens_failure_keeps_tokens (st : state) (text : string) :
  post (trace st) (oauth_request (self st)) = Response text ->
  loads text = None \/
  (exists d, loads text = Some (VDict d) /\ lookup "access_token" d = None) ->
  exists st',
    refresh_tokens st
      = (Ret (error_dict ("Error on decode oauth response [" ++ text ++ "]")),
         st') /\
    get_tokens (self st') = get_tokens (self st) /\
    trace st' = (trace st ++ [Sent (oauth_request (self st))])%list.
Proof.
  intros Hp [Hl | (d & Hl & Ha)]; eexists; split.
  - apply refresh_tokens_undecodable; assumption.
  - split; reflexivity.
  - eapply refresh_tokens_no_access_token; eassumption.
  - split; reflexivity.
Qed.

(** X10. A transport failure at the API request becomes an error result, but
    the same failure at the token refresh is not caught: after a response
    with [NO_AUTH_FOUND] or [expired_token], a read timeout or a
    connection failure of the OAuth request leaves [call] as an
    exception. *)
Theorem call_refresh_failure_escapes (fuel : nat) (st : state) (m : string)
  (p1 p2 p3 p4 p1' : option dict) (body : string) (result : value) (e : exn) :
  m <> "" ->
  prepare_call m p1 = (p1', Ret tt) ->
  encode_slots [p1'; p2; p3; p4; auth_slot (self st)] "" = Ret body ->
  decode_reply (post (trace st) (api_request (self st) m body)) = Ret result ->
  error_in result ["NO_AUTH_FOUND"; "expired_token"] = Ret true ->
  let st1 := record st (Sent (api_request (self st) m body)) in
  e = ReadTimeout \/ e = ConnectionError ->
  post (trace st1) (oauth_request (self st)) = Fails e ->
  call fuel st (VStr m) p1 p2 p3 p4
    = (Raise e, record st1 (Sent (oauth_request (self st))), p1').
Proof.
  intros Hm Hp He Hd Herr st1 Hkind Hpost.
  assert (Hr : refresh_tokens st1
               = (Raise e, record st1 (Sent (oauth_request (self st))))).
  { unfold refresh_tokens. fold (oauth_request (self st1)).
    change (self st1) with (self st). rewrite Hpost.
    destruct Hkind as [-> | ->]; reflexivity. }
  apply String.eqb_neq in Hm. unfold api_request in *.
  destruct fuel; cbn [call]; rewrite Hm, Hp, He, Hd, Herr;
    fold st1; rewrite Hr; reflexivity.
Qed.

(** ** Further properties of the batch preparation *)

(** On a well-formed command map whose commands are all accepted,
    [prepare_batch] returns the prepared mapping and leaves its argument
    with every list short of its first element. *)
Lemma prepare_batch_accepted (d : dict) :
  dict_wf d ->
  (forall k v, In (k, v) d -> exists s, prepares v s) ->
  exists b,
    prepare_batch (VDict d)
      = (VDict (map (fun kv => (fst kv, pop_first (snd kv))) d), Ret b) /\
    keys b = sorted (keys d) /\
    forall k v, In (k, v) d ->
                exists s, prepares v s /\ lookup k b = Some (VStr s).
Proof.
  clear loads.
  intros Hwf Hok.
  destruct (prepare_loop_accepted (sorted (keys d)) [] d []
              (sorted_NoDup _ Hwf) (accepted_by_key d Hwf Hok))
    as (params' & b & Hrun & Hkeys & Hin & Hout & Hb & _ & Hbk).
  rewrite app_nil_r in Hrun. exists b. split; [| split].
  - unfold prepare_batch. rewrite Hrun. simpl. do 2 f_equal.
    apply dict_ext.
    + unfold dict_wf. rewrite Hkeys. exact Hwf.
    + rewrite Hkeys, keys_map_values. reflexivity.
    + intro k. rewrite lookup_map_values.
      destruct (in_dec string_dec k (sorted (keys d))) as [Hk | Hk].
      * apply Hin. exact Hk.
      * rewrite (Hout k Hk).
        assert (Hn : lookup k d = None).
        { apply lookup_None. intro H. apply Hk. apply sorted_In. exact H. }
        rewrite Hn. reflexivity.
  - apply Hbk; simpl; tauto.
  - intros k v Hkv. destruct (Hok k v Hkv) as (s & Hs).
    exists s. split; [exact Hs |].
    apply (Hb k v s); auto.
    + apply sorted_In. apply (in_map fst) in Hkv. exact Hkv.
    + apply In_lookup; assumption.
Qed.

(** The preparation step of [call('batch', params1)] on a mapping that is
    not marked yet. *)
Lemma prepare_call_first (p : dict) (cmd : value) (b : dict) :
  lookup "cmd" p = Some cmd ->
  has_key "prepared" p = false ->
  snd (prepare_batch cmd) = Ret b ->
  prepare_call "batch" (Some p)
    = (Some (dict_set (dict_set p "cmd" (VDict b)) "prepared" (VBool true)),
       Ret tt).
Proof.
  intros Hc Hk Hb.
  unfold prepare_call. cbn [String.eqb Ascii.eqb Bool.eqb].
  rewrite Hk, Hc.
  destruct (prepare_batch cmd) as [cmd' r]. simpl in Hb.
  rewrite Hb. reflexivity.
Qed.

(** X11. The first [call('batch', params1)] on a mapping without the
    ['prepared'] marker, whose commands are all accepted, replaces
    ['cmd'] by the prepared mapping and sets ['prepared'] to [True],
    leaving the other entries alone; a mapping so marked is left as it is
    by every later preparation, so that a retry does not prepare twice. *)
Theorem prepare_call_marks (p d : dict) :
  lookup "cmd" p = Some (VDict d) ->
  has_key "prepared" p = false ->
  dict_wf d ->
  (forall k v, In (k, v) d -> exists s, prepares v s) ->
  exists b p',
    snd (prepare_batch (VDict d)) = Ret b /\
    prepare_call "batch" (Some p) = (Some p', Ret tt) /\
    lookup "cmd" p' = Some (VDict b) /\
    lookup "prepared" p' = Some (VBool true) /\
    (forall k, k <> "cmd" -> k <> "prepared" -> lookup k p' = lookup k p) /\
    prepare_call "batch" (Some p') = (Some p', Ret tt).
Proof.
  intros Hc Hk Hwf Hok.
  destruct (prepare_batch_accepted d Hwf Hok) as (b & Hrun & _).
  assert (Hb : snd (prepare_batch (VDict d)) = Ret b)
    by (rewrite Hrun; reflexivity).
  exists b, (dict_set (dict_set p "cmd" (VDict b)) "prepared" (VBool true)).
  assert (Hp := prepare_call_first p (VDict d) b Hc Hk Hb).
  split; [exact Hb | split; [exact Hp | split; [| split; [| split]]]].
  - rewrite lookup_dict_set_ne by discriminate. apply lookup_dict_set_eq.
  - apply lookup_dict_set_eq.
  - intros k H1 H2. rewrite !lookup_dict_set_ne by assumption. reflexivity.
  - exact (prepare_call_again _ _ _ Hp).
Qed.

(** X12. [prepare_batch] cannot be applied to its own result: on the mapping
    it returned for a non-empty command map, whose values are strings, it
    raises ['Invalid 'cmd' method description']. *)
Theorem prepare_batch_not_twice (d b : dict) :
  dict_wf d -> d <> [] ->
  (forall k v, In (k, v) d -> exists s, prepares v s) ->
  snd (prepare_batch (VDict d)) = Ret b ->
  snd (prepare_batch (VDict b))
    = Raise (Exception "Invalid 'cmd' method description").
Proof.
  intros Hwf Hne Hok Hb.
  destruct (prepare_batch_accepted d Hwf Hok) as (b' & Hb' & Hkeys & Hval).
  rewrite Hb' in Hb. simpl in Hb. injection Hb as ->.
  destruct d as [| [k0 v0] d0]; [contradiction |].
  destruct (sorted (keys b)) as [| k ids] eqn:Hs.
  { assert (Hl := sorted_length (keys b)). rewrite Hs, Hkeys in Hl.
    rewrite sorted_length in Hl. discriminate. }
  assert (Hk : In k (keys ((k0, v0) :: d0))).
  { apply (proj1 (sorted_In _ _)). rewrite <- Hkeys.
    apply (proj1 (sorted_In _ _)). rewrite Hs. left. reflexivity. }
  destruct (lookup k ((k0, v0) :: d0)) as [v |] eqn:El.
  2:{ apply lookup_None in El. contradiction. }
  destruct (Hval k v (lookup_Some_In _ _ _ El)) as (s & _ & Hbs).
  unfold prepare_batch. rewrite Hs.
  assert (E := prepare_loop_refused k ids b [] (VStr s)
                 "Invalid 'cmd' method description" Hbs).
  destruct (prepare_loop (k :: ids) b []). simpl in *. apply E.
  constructor. intros l. discriminate.
Qed.

(** X13. [prepare_batch] cannot be run a second time on the map it has
    mutated either.  With a form encoder that accepts mappings only (as
    [multidimensional_urlencode] does), the second run on a well-formed
    command map stops at the first of the sorted request-ids, whose list
    is by then short of its method name: with [IndexError] when the
    command had no parameters, the map being left as it is; with
    [TypeError] when it had some, the first of them having been popped as
    if it were the method name.  No other entry is touched. *)
Theorem prepare_batch_rerun_raises (d d' : dict) (k : string) (m : value)
  (rest : list value) :
  (forall v s, urlencode v = Ret s -> exists x, v = VDict x) ->
  dict_wf d ->
  (forall k v, In (k, v) d -> exists s, prepares v s) ->
  fst (prepare_batch (VDict d)) = VDict d' ->
  hd_error (sorted (keys d)) = Some k ->
  lookup k d = Some (VList (m :: rest)) ->
  lookup k d' = Some (VList rest) /\
  (rest = [] ->
   prepare_batch (VDict d') = (VDict d', Raise IndexError)) /\
  (forall p rest',
     rest = p :: rest' ->
     prepare_batch (VDict d')
       = (VDict (dict_set d' k (VList rest')), Raise TypeError)).
Proof.
  intros Henc Hwf Hok Hd' Hhd Hl.
  destruct (prepare_batch_accepted d Hwf Hok) as (b & Hrun & _).
  rewrite Hrun in Hd'. simpl in Hd'. injection Hd' as <-.
  assert (Hkeys : keys (map (fun kv => (fst kv, pop_first (snd kv))) d)
                  = keys d) by apply keys_map_values.
  assert (Hl' : lookup k (map (fun kv => (fst kv, pop_first (snd kv))) d)
                = Some (VList rest)).
  { rewrite lookup_map_values, Hl. reflexivity. }
  split; [exact Hl' |].
  destruct (sorted (keys d)) as [| k0 ids] eqn:Hs; [discriminate |].
  simpl in Hhd. injection Hhd as ->.
  destruct (Hok k _ (lookup_Some_In _ _ _ Hl)) as (s & Hs').
  inversion Hs' as [m0 rest0 us Hm Hus]; subst.
  split.
  - intros ->. unfold prepare_batch. rewrite Hkeys, Hs.
    cbn [prepare_loop]. rewrite Hl'. reflexivity.
  - intros p rest' ->. unfold prepare_batch. rewrite Hkeys, Hs.
    cbn [prepare_loop]. rewrite Hl'.
    inversion Hus as [| p0 u rest0 us' Hp Hrest]; subst.
    destruct (Henc p u Hp) as (x & ->).
    cbn [eq_str]. rewrite (encode_each_joined _ _ Hrest). reflexivity.
Qed.

(** ** Further properties of the merge *)

Lemma has_key_dict_set {V : Type} (d : list (string * V)) (k k' : string)
  (v : V) :
  has_key k' (dict_set d k v) = String.eqb k' k || has_key k' d.
Proof.
  unfold has_key. rewrite lookup_dict_set.
  destruct (String.eqb k' k); reflexivity.
Qed.

Lemma keys_dict_set {V : Type} (d : list (string * V)) (k : string) (v : V) :
  keys (dict_set d k v)
    = (keys d ++ if has_key k d then [] else [k])%list.
Proof.
  clear loads.
  destruct (has_key k d) eqn:E.
  - rewrite app_nil_r. apply keys_dict_set_old. apply has_key_true. exact E.
  - rewrite dict_set_new.
    + unfold keys. rewrite map_app. reflexivity.
    + intro H. apply has_key_true in H. congruence.
Qed.

(** The keys of [z = x.copy(); z.update(y)]: those of [x] in their order,
    then those that only [y] has, in the order of [y]. *)
Lemma keys_dict_update_order (x y : dict) :
  dict_wf y ->
  keys (dict_update x y)
    = (keys x ++ filter (fun k => negb (has_key k x)) (keys y))%list.
Proof.
  clear loads.
  unfold dict_update, dict_wf. revert x.
  induction y as [| [k v] y IH]; intros x Hnd; simpl.
  - rewrite app_nil_r. reflexivity.
  - inversion Hnd as [| ? ? Hnotin Hnd']; subst.
    rewrite IH by assumption. rewrite keys_dict_set, <- app_assoc.
    f_equal.
    assert (Hf : filter (fun k0 => negb (has_key k0 (dict_set x k v))) (keys y)
                 = filter (fun k0 => negb (has_key k0 x)) (keys y)).
    { apply filter_ext_in. intros k0 Hk0. rewrite has_key_dict_set.
      destruct (String.eqb k0 k) eqn:E; [| reflexivity].
      apply String.eqb_eq in E. subst. contradiction. }
    rewrite Hf. destruct (has_key k x); reflexivity.
Qed.

(** X14. [merge_two_dicts(x, y)] on two mappings returns a new mapping in
    which every key of [y] has the value of [y] and every other key of [x]
    the value of [x]; its keys are those of [x] in their order, followed
    by the keys that only [y] has.  A first operand that is not a mapping
    raises [AttributeError]. *)
Theorem merge_two_dicts_right_wins (x y : dict) :
  dict_wf y ->
  merge_two_dicts (VDict x) y = Ret (dict_update x y) /\
  (forall k v, lookup k y = Some v -> lookup k (dict_update x y) = Some v) /\
  (forall k, lookup k y = None -> lookup k (dict_update x y) = lookup k x) /\
  keys (dict_update x y)
    = (keys x ++ filter (fun k => negb (has_key k x)) (keys y))%list /\
  (dict_wf x -> dict_wf (dict_update x y)) /\
  (forall v, (forall d, v <> VDict d) ->
             merge_two_dicts v y = Raise AttributeError).
Proof.
  intro Hwf. split; [reflexivity |].
  split; [| split; [| split; [| split]]].
  - intros k v Hk. rewrite lookup_dict_update by exact Hwf.
    rewrite Hk. reflexivity.
  - intros k Hk. rewrite lookup_dict_update by exact Hwf.
    rewrite Hk. reflexivity.
  - apply keys_dict_update_order. exact Hwf.
  - apply dict_update_wf.
  - intros v Hv. destruct v; try reflexivity. exfalso. exact (Hv d eq_refl).
Qed.

(** The merging loop gets through the mergeable entries [l] that come
    first and goes on with the rest. *)
Lemma merge_loop_prefix (tr : dict) (more : list value) :
  dict_wf tr ->
  forall (l : dict) (acc : list (string * dict)),
    (forall kv, In kv l -> In kv tr) -> dict_wf l ->
    Forall (mergeable acc) l ->
    exists acc',
      merge_loop (VDict tr) (map VStr (keys l) ++ more) acc
        = merge_loop (VDict tr) more acc' /\
      keys acc' = keys acc.
Proof.
  intros Hwf l. induction l as [| [k x] l IH]; intros acc Hsub Hnd Hm.
  - exists acc. split; reflexivity.
  - inversion Hnd as [| ? ? Hnotin Hnd']; subst.
    inversion Hm as [| ? ? Hx Hm']; subst.
    assert (Hl : lookup k tr = Some x)
      by (apply In_lookup; [exact Hwf | apply Hsub; left; reflexivity]).
    assert (Hsub' : forall kv, In kv l -> In kv tr)
      by (intros kv H; apply Hsub; right; exact H).
    simpl map. simpl app. cbn [merge_loop getitem]. rewrite Hl. cbn [bind].
    unfold mergeable in Hx. simpl in Hx.
    destruct x as [| | | s | lx | dx]; try contradiction.
    + destruct s; [| contradiction]. simpl. apply IH; auto.
    + destruct lx; [| contradiction]. simpl. apply IH; auto.
    + destruct dx as [| e dx]; [simpl; apply IH; auto |].
      unfold has_key in Hx.
      destruct (lookup k acc) as [y |] eqn:Hy; [| discriminate].
      cbn [len length bind Nat.ltb Nat.leb acc_get]. rewrite Hy.
      cbn [bind merge_two_dicts].
      assert (Hk1 : keys (dict_set acc k (dict_update (e :: dx) y)) = keys acc)
        by (apply keys_dict_set_old; eapply lookup_Some_key; eauto).
      destruct (IH (dict_set acc k (dict_update (e :: dx) y)) Hsub' Hnd')
        as (acc' & Hrun & Hk).
      { eapply Forall_impl; [| exact Hm'].
        intros kv. apply mergeable_keys. exact Hk1. }
      exists acc'. split; [exact Hrun | congruence].
Qed.

(** X15. The merge in [batch] knows four names only.  When the result of a
    chunk response holds, after sub-maps that are merged without fault, a
    non-empty mapping under a name that the accumulator does not have
    (such as [result_time]), the merge raises [KeyError] with that name;
    a non-empty list under a name that it has raises [AttributeError]. *)
Theorem merge_chunk_faults (temp : value) (front back : dict) (i : string)
  (x : value) (acc : list (string * dict)) :
  getitem temp (VStr "result") = Ret (VDict (front ++ (i, x) :: back)) ->
  dict_wf (front ++ (i, x) :: back) ->
  Forall (mergeable acc) front ->
  ((exists e dx, x = VDict (e :: dx)) -> has_key i acc = false ->
   merge_chunk temp acc = Raise (KeyError (VStr i))) /\
  ((exists e l, x = VList (e :: l)) -> has_key i acc = true ->
   merge_chunk temp acc = Raise AttributeError).
Proof.
  intros Hg Hwf Hm.
  assert (Hpre : dict_wf front).
  { unfold dict_wf, keys in *. rewrite map_app in Hwf.
    exact (NoDup_app_remove_r _ _ Hwf). }
  destruct (merge_loop_prefix (front ++ (i, x) :: back)
              (map VStr (keys ((i, x) :: back))) Hwf front acc)
    as (acc' & Hrun & Hk); auto.
  { intros kv H. apply in_or_app. left. exact H. }
  assert (Hl : lookup i (front ++ (i, x) :: back) = Some x).
  { apply In_lookup; [exact Hwf |]. apply in_or_app. right. left. reflexivity. }
  assert (Hstart : merge_chunk temp acc
                   = merge_loop (VDict (front ++ (i, x) :: back))
                       (map VStr (keys ((i, x) :: back))) acc').
  { unfold merge_chunk. rewrite Hg. cbn [bind iter].
    unfold keys at 1. rewrite map_app, map_app. exact Hrun. }
  rewrite Hstart. simpl map. cbn [merge_loop getitem]. rewrite Hl. cbn [bind].
  split.
  - intros (e & dx & ->) Hno.
    cbn [len length bind Nat.ltb Nat.leb acc_get].
    assert (Hn : lookup i acc' = None).
    { apply lookup_None. rewrite Hk. intro H.
      apply has_key_true in H. congruence. }
    rewrite Hn. reflexivity.
  - intros (e & l & ->) Hyes.
    cbn [len length bind Nat.ltb Nat.leb acc_get].
    assert (Hin : In i (keys acc')).
    { rewrite Hk. apply has_key_true. exact Hyes. }
    destruct (lookup i acc') as [y |] eqn:Hy.
    + reflexivity.
    + apply lookup_None in Hy. contradiction.
Qed.

(** ** Further properties of [batch] *)

(** X16. The guard of [batch].  Without ['halt'] or without ['cmd'],
    [batch] returns its error result; with both, and a ['cmd'] that is
    not a mapping, it raises [AttributeError] at [params['cmd'].keys()].
    In both cases no request is sent and the client is untouched. *)
Theorem batch_invalid_structure (fuel : nat) (st : state) (params : dict) :
  (has_key "halt" params = false \/ has_key "cmd" params = false ->
   batch fuel st params = (Ret (error_dict "Invalid batch structure"), st)) /\
  (forall cmd,
     has_key "halt" params = true ->
     lookup "cmd" params = Some cmd ->
     (forall d, cmd <> VDict d) ->
     batch fuel st params = (Raise AttributeError, st)).
Proof.
  split.
  - intros [H | H]; unfold batch; rewrite H; simpl;
      [| rewrite orb_true_r]; reflexivity.
  - intros cmd Hh Hc Hn. unfold batch. rewrite Hh.
    unfold has_key in *. rewrite Hc. cbn [negb orb].
    destruct (lookup "halt" params) as [halt |]; [| discriminate].
    destruct cmd; try reflexivity. exfalso. exact (Hn d eq_refl).
Qed.

Lemma pieces_concat (n : nat) :
  0 < n ->
  forall fuel ids, length ids <= fuel -> concat (pieces n fuel ids) = ids.
Proof.
  intros Hn. induction fuel as [| fuel IH]; intros ids Hlen.
  - destruct ids; [reflexivity | simpl in Hlen; lia].
  - destruct ids as [| a ids]; [reflexivity |].
    rewrite pieces_cons by discriminate. cbn [concat].
    rewrite IH; [apply firstn_skipn |].
    rewrite length_skipn. simpl length in *. lia.
Qed.

Lemma pieces_sizes (n : nat) :
  0 < n ->
  forall fuel ids p,
    In p (pieces n fuel ids) -> 1 <= length p <= n.
Proof.
  intros Hn. induction fuel as [| fuel IH]; intros ids p; [intros [] |].
  destruct ids as [| a ids]; [intros [] |].
  rewrite pieces_cons by discriminate.
  intros [<- | H]; [| eapply IH; exact H].
  rewrite length_firstn. simpl length. lia.
Qed.

Lemma pieces_full (n : nat) :
  0 < n ->
  forall fuel ids i,
    S i < length (pieces n fuel ids) ->
    length (nth i (pieces n fuel ids) []) = n.
Proof.
  intros Hn. induction fuel as [| fuel IH]; intros ids i;
    [simpl; lia |].
  destruct ids as [| a ids]; [simpl; lia |].
  rewrite pieces_cons by discriminate. cbn [length nth].
  destruct i as [| i].
  - intro H.
    destruct (pieces n fuel (skipn n (a :: ids))) as [| q qs] eqn:E;
      [simpl in H; lia |].
    rewrite length_firstn.
    destruct (Nat.le_gt_cases n (length (a :: ids))) as [Hle | Hgt]; [lia |].
    rewrite skipn_all2 in E by lia. rewrite pieces_nil in E. discriminate.
  - intro H. apply IH. lia.
Qed.

Lemma pieces_count (n : nat) :
  0 < n ->
  forall fuel ids,
    length ids <= fuel ->
    length ids <= length (pieces n fuel ids) * n /\
    (length (pieces n fuel ids) - 1) * n < length ids + Nat.b2n
        (match ids with [] => true | _ => false end).
Proof.
  intros Hn. induction fuel as [| fuel IH]; intros ids Hlen.
  - destruct ids; simpl in *; lia.
  - destruct ids as [| a ids]; [simpl; lia |].
    rewrite pieces_cons by discriminate. cbn [length Nat.b2n].
    assert (Hs : length (skipn n (a :: ids)) = length (a :: ids) - n)
      by apply length_skipn.
    destruct (IH (skipn n (a :: ids))) as (H1 & H2).
    { rewrite Hs. simpl length in *. lia. }
    rewrite Hs in H1, H2.
    destruct (skipn n (a :: ids)) as [| b rest] eqn:E.
    + rewrite pieces_nil in *. simpl length in *. lia.
    + cbn [Nat.b2n] in H2. simpl length in *. nia.
Qed.

(** X17. For every command map, [batch] is one round (a call and the merge
    of its response) per chunk, in order; the chunks are the sorted
    request-ids cut into consecutive pieces, each holding the entries of
    the command map under its request-ids, every chunk with at least 1
    and at most 49 entries and every chunk but the last with exactly 49,
    so that [n] commands make the smallest number of chunks that 49 per
    chunk allows; an empty command map makes none. *)
Theorem batch_chunking (fuel : nat) (st : state) (params cmd : dict)
  (halt : value) :
  lookup "cmd" params = Some (VDict cmd) ->
  lookup "halt" params = Some halt ->
  dict_wf cmd ->
  batch fuel st params
    = finish (run_chunks fuel halt (chunks cmd) empty_acc st) /\
  concat (map keys (chunks cmd)) = sorted (keys cmd) /\
  (forall c, In c (chunks cmd) ->
     1 <= length c <= 49 /\
     forall k, In k (keys c) -> lookup k c = lookup k cmd) /\
  (forall i, S i < length (chunks cmd) ->
             length (nth i (chunks cmd) []) = 49) /\
  length cmd <= length (chunks cmd) * 49 /\
  (cmd <> [] -> (length (chunks cmd) - 1) * 49 < length cmd) /\
  (cmd = [] -> batch fuel st params = (Ret (wrap_acc empty_acc), st)).
Proof.
  intros Hc Hh Hwf.
  set (ids := sorted (keys cmd)).
  assert (Hlen : length ids = length cmd)
    by (unfold ids; rewrite sorted_length, length_keys; reflexivity).
  assert (Hsub : forall p k, In p (pieces 49 (length ids) ids) -> In k p ->
                             In k (keys cmd)).
  { intros p k Hp Hk. apply (proj1 (sorted_In _ _)). fold ids.
    rewrite <- (pieces_concat 49 ltac:(lia) (length ids) ids (le_n _)).
    apply in_concat. exists p. split; assumption. }
  assert (Hkeys : map keys (chunks cmd) = pieces 49 (length ids) ids).
  { unfold chunks. fold ids. cbv zeta. rewrite map_map.
    rewrite <- (map_id (pieces 49 (length ids) ids)) at 2.
    apply map_ext_in. intros p Hp. apply keys_chunk_of.
    intros k Hk. exact (Hsub p k Hp Hk). }
  assert (Hcount : length (chunks cmd) = length (pieces 49 (length ids) ids))
    by (rewrite <- Hkeys, length_map; reflexivity).
  split; [exact (batch_runs_chunks fuel st params cmd halt Hc Hh Hwf) |].
  split; [rewrite Hkeys; apply pieces_concat; lia |].
  split; [| split; [| split; [| split]]].
  - intros c Hin. unfold chunks in Hin. fold ids in Hin. cbv zeta in Hin.
    apply in_map_iff in Hin. destruct Hin as (p & <- & Hp).
    assert (Hkp : keys (chunk_of cmd p) = p)
      by (apply keys_chunk_of; intros k Hk; exact (Hsub p k Hp Hk)).
    split.
    + rewrite <- length_keys, Hkp.
      exact (pieces_sizes 49 ltac:(lia) _ _ _ Hp).
    + intros k Hk. apply lookup_chunk_of. rewrite Hkp in Hk. exact Hk.
  - intros i Hi.
    rewrite <- (length_keys (nth i (chunks cmd) [])).
    assert (E : keys (nth i (chunks cmd) [])
                = nth i (pieces 49 (length ids) ids) []).
    { rewrite <- Hkeys.
      change (@nil string) with (keys (@nil (string * value))).
      symmetry. apply map_nth. }
    rewrite E. apply pieces_full; [lia |]. rewrite <- Hcount. exact Hi.
  - rewrite Hcount, <- Hlen.
    exact (proj1 (pieces_count 49 ltac:(lia) _ _ (le_n _))).
  - intro Hne. rewrite Hcount, <- Hlen.
    assert (H := proj2 (pieces_count 49 ltac:(lia) _ _ (le_n (length ids)))).
    destruct ids as [| a l] eqn:E.
    + destruct cmd; [contradiction | discriminate].
    + cbn [Nat.b2n] in H. lia.
  - intros ->.
    rewrite (batch_runs_chunks fuel st params [] halt Hc Hh Hwf).
    reflexivity.
Qed.

Lemma merge_chunk_keys (temp : value) (acc acc' : list (string * dict)) :
  merge_chunk temp acc = Ret acc' -> keys acc' = keys acc.
Proof.
  unfold merge_chunk. intro H.
  apply bind_Ret in H. destruct H as (tr & _ & H).
  apply bind_Ret in H. destruct H as (items & _ & H).
  eapply merge_loop_keys. exact H.
Qed.

Lemma batch_loop_keys (fuel : nat) (cmd : dict) (halt : value) :
  forall (ids : list string) (count : nat) (batch : dict)
         (acc acc' : list (string * dict)) (st st' : state),
    batch_loop fuel cmd halt ids count batch acc st = (Ret acc', st') ->
    keys acc' = keys acc.
Proof.
  induction ids as [| k ids IH]; intros count batch acc acc' st st';
    cbn [batch_loop].
  - intro H. injection H as <- _. reflexivity.
  - destruct (lookup k cmd) as [v |]; [| discriminate].
    destruct (_ || _).
    + destruct (call fuel st (VStr "batch") _ None None None)
        as [[[temp | e |] st1] p]; try discriminate.
      destruct (merge_chunk temp acc) as [acc1 | e |] eqn:Hm;
        try discriminate.
      intro H. apply IH in H. rewrite H. exact (merge_chunk_keys _ _ _ Hm).
    + apply IH.
Qed.

(** X18. Whatever the responses hold, a mapping that [batch] returns for
    parameters with ['halt'] and ['cmd'] has the one entry ['result'],
    which holds exactly the four mappings [result_error], [result_total],
    [result] and [result_next], in this order. *)
Theorem batch_result_shape (fuel : nat) (st st' : state) (params : dict)
  (cmd halt r : value) :
  lookup "cmd" params = Some cmd ->
  lookup "halt" params = Some halt ->
  batch fuel st params = (Ret r, st') ->
  exists e t x n,
    r = VDict [("result",
                VDict [("result_error", VDict e); ("result_total", VDict t);
                       ("result", VDict x); ("result_next", VDict n)])].
Proof.
  intros Hc Hh. unfold batch, has_key. rewrite Hc, Hh. cbn [negb orb].
  destruct cmd as [| | | | | cmd]; try discriminate.
  destruct (batch_loop fuel cmd halt (sorted (keys cmd)) 0 [] empty_acc st)
    as [[acc | e |] st1] eqn:Hloop; try discriminate.
  intro H. injection H as <- _.
  assert (Hk := batch_loop_keys _ _ _ _ _ _ _ _ _ _ Hloop).
  destruct acc as [| [k1 e] [| [k2 t] [| [k3 x] [| [k4 n] [| ? ?]]]]];
    try discriminate.
  injection Hk as -> -> -> ->.
  exists e, t, x, n. reflexivity.
Qed.

(** X19. [batch] relies on every chunk response having a ['result']: when
    the call for the first chunk returns a mapping without it (an error
    result such as a timeout, or an error response of the server),
    [batch] raises [KeyError] instead of returning, and no further chunk
    is sent. *)
Theorem batch_without_result (fuel : nat) (st st1 : state)
  (params cmd t : dict) (halt : value) (p : option dict) :
  lookup "cmd" params = Some (VDict cmd) ->
  lookup "halt" params = Some halt ->
  dict_wf cmd -> cmd <> [] ->
  call fuel st (VStr "batch")
       (Some [("halt", halt);
              ("cmd", VDict (chunk_of cmd (firstn 49 (sorted (keys cmd)))))])
       None None None
    = (Ret (VDict t), st1, p) ->
  lookup "result" t = None ->
  batch fuel st params = (Raise (KeyError (VStr "result")), st1).
Proof.
  intros Hc Hh Hwf Hne Hcall Ht.
  rewrite (batch_runs_chunks fuel st params cmd halt Hc Hh Hwf).
  unfold chunks. cbv zeta.
  destruct (sorted (keys cmd)) as [| a ids] eqn:Hs.
  { assert (Hl := sorted_length (keys cmd)). rewrite Hs in Hl.
    destruct cmd; [contradiction | discriminate]. }
  cbn [length]. rewrite pieces_cons by discriminate.
  cbn [map run_chunks]. unfold chunk_round. rewrite Hcall.
  unfold merge_chunk. cbn [getitem]. rewrite Ht. reflexivity.
Qed.

(** X20. [batch] keeps the connection identity of the client, only adds to
    the trace, and every request with a body that it sends goes to the
    URL of the method ['batch']. *)
Theorem batch_frame (fuel : nat) (st : state) (params : dict) :
  let st' := snd (batch fuel st params) in
  domain (self st') = domain (self st) /\
  client_id (self st') = client_id (self st) /\
  client_secret (self st') = client_secret (self st) /\
  webhook_key (self st') = webhook_key (self st) /\
  webhook_user (self st') = webhook_user (self st) /\
  exists added,
    trace st' = (trace st ++ added)%list /\
    Forall (fun u => u = get_url (self st) "batch") (data_urls added).
Proof.
  assert (Hloop : forall cmd halt ids count batch acc st0,
    let st' := snd (batch_loop fuel cmd halt ids count batch acc st0) in
    domain (self st') = domain (self st0) /\
    client_id (self st') = client_id (self st0) /\
    client_secret (self st') = client_secret (self st0) /\
    webhook_key (self st') = webhook_key (self st0) /\
    webhook_user (self st') = webhook_user (self st0) /\
    exists added,
      trace st' = (trace st0 ++ added)%list /\
      Forall (fun u => u = get_url (self st0) "batch") (data_urls added)).
  { intros cmd halt.
    assert (Hrefl : forall s : state,
      domain (self s) = domain (self s) /\
      client_id (self s) = client_id (self s) /\
      client_secret (self s) = client_secret (self s) /\
      webhook_key (self s) = webhook_key (self s) /\
      webhook_user (self s) = webhook_user (self s) /\
      exists added,
        trace s = (trace s ++ added)%list /\
        Forall (fun u => u = get_url (self s) "batch") (data_urls added)).
    { intro s. repeat (split; [reflexivity |]).
      exists []. rewrite app_nil_r. split; [reflexivity | constructor]. }
    induction ids as [| k ids IH]; intros count batch acc st0;
      cbn [batch_loop]; [apply Hrefl |].
    destruct (lookup k cmd) as [v |]; [| apply Hrefl].
    destruct (_ || _); [| apply IH].
    pose proof (call_identity_kept fuel st0 (VStr "batch")
                  (Some [("halt", halt);
                         ("cmd", VDict (dict_set batch k v))])
                  None None None) as Hf.
    pose proof (call_data_urls fuel "batch" None None None st0
                  (Some [("halt", halt);
                         ("cmd", VDict (dict_set batch k v))])) as Hu.
    destruct (call fuel st0 (VStr "batch") _ None None None)
      as [[r st1] p]. cbv zeta in Hf. simpl in Hf, Hu.
    destruct Hf as (F1 & F2 & F3 & F4 & F5 & _).
    destruct Hu as (a1 & Ht1 & Hu1).
    assert (Hstop :
      domain (self st1) = domain (self st0) /\
      client_id (self st1) = client_id (self st0) /\
      client_secret (self st1) = client_secret (self st0) /\
      webhook_key (self st1) = webhook_key (self st0) /\
      webhook_user (self st1) = webhook_user (self st0) /\
      exists added,
        trace st1 = (trace st0 ++ added)%list /\
        Forall (fun u => u = get_url (self st0) "batch") (data_urls added)).
    { repeat (split; [assumption |]). exists a1. auto. }
    destruct r as [temp | e |]; try exact Hstop.
    destruct (merge_chunk temp acc) as [acc1 | e |]; try exact Hstop.
    destruct (IH (S count) [] acc1 st1)
      as (G1 & G2 & G3 & G4 & G5 & a2 & Ht2 & Hu2).
    repeat (split; [congruence |]).
    exists (a1 ++ a2)%list. split.
    - rewrite Ht2, Ht1, app_assoc. reflexivity.
    - rewrite data_urls_app. apply Forall_app. split; [exact Hu1 |].
      rewrite (get_url_frame _ _ "batch" F1 F4 F5) in Hu2. exact Hu2. }
  assert (Hrefl :
    domain (self st) = domain (self st) /\
    client_id (self st) = client_id (self st) /\
    client_secret (self st) = client_secret (self st) /\
    webhook_key (self st) = webhook_key (self st) /\
    webhook_user (self st) = webhook_user (self st) /\
    exists added,
      trace st = (trace st ++ added)%list /\
      Forall (fun u => u = get_url (self st) "batch") (data_urls added)).
  { repeat (split; [reflexivity |]).
    exists []. rewrite app_nil_r. split; [reflexivity | constructor]. }
  unfold batch.
  destruct (negb (has_key "halt" params) || negb (has_key "cmd" params));
    [exact Hrefl |].
  destruct (lookup "cmd" params) as [[| | | | | cmd] |];
    destruct (lookup "halt" params) as [halt |]; try exact Hrefl.
  specialize (Hloop cmd halt (sorted (keys cmd)) 0 [] empty_acc st).
  destruct (batch_loop fuel cmd halt (sorted (keys cmd)) 0 [] empty_acc st)
    as [[acc | e |] st1]; exact Hloop.
Qed.

(** ** The request of a batch call *)

(** Once the parameters are prepared and encoded, the first thing that
    [call] does to the outside world is to send its request. *)
Lemma call_sends_first (fuel : nat) (st : state) (m : string)
  (p1 p2 p3 p4 p1' : option dict) (body : string) :
  m <> "" ->
  prepare_call m p1 = (p1', Ret tt) ->
  encode_slots [p1'; p2; p3; p4; auth_slot (self st)] "" = Ret body ->
  exists rest,
    trace (snd (fst (call fuel st (VStr m) p1 p2 p3 p4)))
      = (trace st ++ Sent (api_request (self st) m body) :: rest)%list.
Proof.
  intros Hm Hp He. apply String.eqb_neq in Hm. unfold api_request.
  assert (Hgrow : forall f s p,
             exists rest,
               trace (snd (fst (call f s (VStr m) p p2 p3 p4)))
                 = (trace s ++ rest)%list).
  { intros f s p.
    destruct (call_identity_kept f s (VStr m) p p2 p3 p4)
      as (_ & _ & _ & _ & _ & rest & Hrest).
    exists rest. exact Hrest. }
  destruct fuel as [| fuel]; cbn [call]; rewrite Hm, Hp, He;
    repeat break_match; simpl;
    try solve [ exists []; reflexivity
              | eexists; rewrite <- !app_assoc; reflexivity ];
    try match goal with
        | H : refresh_tokens _ = _ |- _ =>
            destruct (refresh_tokens_frame _ _ _ H) as (sent & Ht & _);
            simpl in Ht
        end;
    try solve [ eexists; rewrite Ht, <- app_assoc; reflexivity ].
  - destruct (Hgrow fuel s p1') as (rest & Hrest).
    eexists. rewrite Hrest, Ht, <- !app_assoc. reflexivity.
  - match goal with
    | |- context [call fuel ?s0 _ _ _ _ _] =>
        destruct (Hgrow fuel s0 p1') as (rest & Hrest)
    end.
    eexists. rewrite Hrest. simpl. rewrite <- !app_assoc. reflexivity.
Qed.

(** X21. The request of a batch call.  For parameters that hold ['halt'] and
    ['cmd'] that [prepare_batch] accepts, and are not yet marked as
    prepared, the first thing [call('batch', params1)] does is to send,
    to the URL of the method, the body made of the prepared commands
    encoded in sorted order, ['&'], the encoded ['halt'], ['&'], and the
    encoded token slot when there is a token. *)
Theorem call_batch_body (fuel : nat) (st : state) (p d b : dict)
  (halt : value) (e h a : string) :
  lookup "cmd" p = Some (VDict d) ->
  lookup "halt" p = Some halt ->
  has_key "prepared" p = false ->
  snd (prepare_batch (VDict d)) = Ret b ->
  encode_cmd (VDict b) = Ret e ->
  urlencode (VDict [("halt", halt)]) = Ret h ->
  encode_slot (auth_slot (self st)) = Ret a ->
  exists rest,
    trace (snd (fst (call fuel st (VStr "batch") (Some p) None None None)))
      = (trace st
           ++ Sent (PostData (get_url (self st) "batch")
                             (e ++ "&" ++ h ++ "&" ++ a) timeout)
           :: rest)%list.
Proof.
  intros Hc Hh Hk Hb He Hu Ha.
  assert (Hp := prepare_call_first p (VDict d) b Hc Hk Hb).
  set (p' := dict_set (dict_set p "cmd" (VDict b)) "prepared" (VBool true))
    in Hp.
  assert (Hc' : lookup "cmd" p' = Some (VDict b)).
  { unfold p'. rewrite lookup_dict_set_ne by discriminate.
    apply lookup_dict_set_eq. }
  assert (Hh' : lookup "halt" p' = Some halt).
  { unfold p'. rewrite !lookup_dict_set_ne by discriminate. exact Hh. }
  assert (Hs : encode_slots [Some p'; None; None; None; auth_slot (self st)] ""
               = Ret (e ++ "&" ++ h ++ "&" ++ a)).
  { cbn [encode_slots encode_slot]. unfold has_key. rewrite Hc'.
    cbn [getitem]. rewrite Hc', Hh'. cbn [bind]. rewrite He. cbn [bind].
    rewrite Hu. cbn [bind]. rewrite Ha. cbn [bind append].
    f_equal. rewrite ?append_nil_r.
    repeat (rewrite append_assoc; cbn [append]). reflexivity. }
  apply (call_sends_first fuel st "batch" (Some p) None None None (Some p')
           _ ltac:(discriminate) Hp Hs).
Qed.

(** X22. A [ValueError] raised by the transport itself (as [requests] does
    for a URL it cannot use) is caught by the handler meant for undecodable
    bodies, which then fails on [r.text] because no response was assigned:
    [call] raises [AttributeError], after recording the one request. *)
Theorem call_transport_value_error (fuel : nat) (st : state) (m : string)
  (p1 p2 p3 p4 p1' : option dict) (body : string) :
  m <> "" ->
  prepare_call m p1 = (p1', Ret tt) ->
  encode_slots [p1'; p2; p3; p4; auth_slot (self st)] "" = Ret body ->
  post (trace st) (api_request (self st) m body) = Fails ValueError ->
  call fuel st (VStr m) p1 p2 p3 p4
    = (Raise AttributeError,
       record st (Sent (api_request (self st) m body)), p1').
Proof.
  intros Hm Hp He Hpost. apply String.eqb_neq in Hm.
  unfold api_request in *.
  destruct fuel; cbn [call]; rewrite Hm, Hp, He, Hpost; reflexivity.
Qed.



End Bitrix24.

(** ** The model at work on concrete inputs *)

(** C7 at [call(None)]. *)
Lemma call_rejects_bad_method_witness :
  call plain_urlencode (table_loads demo_table) (scripted_post []) 0
       demo_state VNone None None None None
    = (Raise (Exception "Empty Method"), demo_state, None).
Proof.
  exact (proj1 (call_rejects_bad_method plain_urlencode
                  (table_loads demo_table) (scripted_post []) 0 demo_state
                  VNone None None None None (or_intror eq_refl))).
Defined.

(** C8 for the OAuth client and the method [user.get]. *)
Lemma call_url_selection_witness :
  (webhook_key demo_client <> "" <->
     get_url demo_client "user.get"
       = webhook_url (domain demo_client) (webhook_user demo_client)
           (webhook_key demo_client) "user.get") /\
  (webhook_key demo_client = "" <->
     get_url demo_client "user.get" = api_url (domain demo_client) "user.get").
Proof.
  assert (H : "user.get" <> "") by discriminate.
  destruct (call_url_selection plain_urlencode (table_loads demo_table)
              (scripted_post []) demo_client "user.get" H) as (H1 & H2 & _).
  exact (conj H1 H2).
Defined.

(** C9 on a two-entry command map and the same map built the other way
    round: both are encoded to the entry of ["a"], then that of ["b"]. *)
Lemma encode_cmd_order_independent_witness :
  encode_cmd plain_urlencode
    (VDict [("b", VStr "crm.lead.list?"); ("a", VStr "user.get?")])
  = Ret "cmd[a]=user.get?&cmd[b]=crm.lead.list?&" /\
  encode_cmd plain_urlencode
    (VDict [("a", VStr "user.get?"); ("b", VStr "crm.lead.list?")])
  = Ret "cmd[a]=user.get?&cmd[b]=crm.lead.list?&".
Proof.
  apply (proj1 (proj2 (encode_cmd_order_independent plain_urlencode
                  [("b", VStr "crm.lead.list?"); ("a", VStr "user.get?")]
                  [("a", VStr "user.get?"); ("b", VStr "crm.lead.list?")]
                  (distinct_NoDup ["b"; "a"] eq_refl)
                  (perm_swap _ _ _)))
           ["cmd[a]=user.get?"; "cmd[b]=crm.lead.list?"]).
  assert (Hs : sorted (keys [("b", VStr "crm.lead.list?");
                             ("a", VStr "user.get?")]) = ["a"; "b"])
    by (vm_compute; reflexivity).
  rewrite Hs.
  constructor; [| constructor; [| constructor]];
    eexists; split; reflexivity.
Defined.

(** A well-formed command map: two commands, one with parameters. *)
Lemma demo_commands_accepted :
  forall k v,
    In (k, v)
       [("b", VList [VStr "crm.lead.list"; VDict [("start", VInt 50)]]);
        ("a", VList [VStr "user.get"])] ->
    exists s, prepares plain_urlencode v s.
Proof.
  intros k v [H | [H | []]]; injection H as <- <-; eexists;
    constructor; try discriminate; repeat econstructor.
Defined.

(** C6 on that map: both commands are turned into strings under their
    own keys. *)
Lemma prepare_batch_outcome_witness :
  exists b,
    snd (prepare_batch plain_urlencode
           (VDict [("b", VList [VStr "crm.lead.list";
                               VDict [("start", VInt 50)]]);
                   ("a", VList [VStr "user.get"])])) = Ret b /\
    keys b = ["a"; "b"].
Proof.
  destruct (proj1 (proj2 (prepare_batch_outcome plain_urlencode))
              [("b", VList [VStr "crm.lead.list"; VDict [("start", VInt 50)]]);
               ("a", VList [VStr "user.get"])]
              (distinct_NoDup ["b"; "a"] eq_refl)
              demo_commands_accepted)
    as (b & Hb & Hk & _).
  exists b. exact (conj Hb Hk).
Defined.

(** C6 as it was stated fails.  A map whose values are lists with a first
    element, the first element being a number: [method + '?'] raises
    [TypeError], no mapping is returned.  A map with a value that is not a
    list, after an empty list in key order: [pop(0)] raises [IndexError],
    not the argument fault. *)
Lemma prepare_batch_other_faults :
  snd (prepare_batch plain_urlencode (VDict [("a", VList [VInt 5])]))
    = Raise TypeError /\
  snd (prepare_batch plain_urlencode
         (VDict [("a", VList []); ("b", VInt 7)]))
    = Raise IndexError.
Proof. split; reflexivity. Qed.

(** C10 on the same map: the caller's lists have lost their method
    names. *)
Lemma prepare_batch_pops_methods_witness :
  exists b,
    prepare_batch plain_urlencode
      (VDict [("b", VList [VStr "crm.lead.list"; VDict [("start", VInt 50)]]);
              ("a", VList [VStr "user.get"])])
    = (VDict [("b", VList [VDict [("start", VInt 50)]]); ("a", VList [])],
       Ret b).
Proof.
  destruct (prepare_batch_pops_methods plain_urlencode
              [("b", VList [VStr "crm.lead.list"; VDict [("start", VInt 50)]]);
               ("a", VList [VStr "user.get"])]
              (distinct_NoDup ["b"; "a"] eq_refl)
              demo_commands_accepted)
    as (b & Hb & _).
  exists b. exact Hb.
Defined.

(** C3 fails on the code.  The OAuth response [{"access_token": ...}]
    without [refresh_token]: [refresh_tokens] returns the failure result,
    but the stored [auth_token] is the one of the response, no longer the
    one before the attempt.  The OAuth response [[]], valid JSON without
    the expected fields: [refresh_tokens] raises [TypeError] instead of
    returning the failure result. *)
Lemma refresh_tokens_partial_update :
  (let (r, st) := refresh_tokens (table_loads demo_table)
                    (scripted_post [Response "access-only"]) demo_state in
   r = Ret (VDict [("error",
                    VStr "Error on decode oauth response [access-only]")]) /\
   auth_token (self st) = VStr "new-access" /\
   auth_token (self demo_state) = VStr "old-access" /\
   refresh_token (self st) = refresh_token (self demo_state)) /\
  fst (refresh_tokens (table_loads demo_table)
         (scripted_post [Response "array"]) demo_state) = Raise TypeError.
Proof. split; [repeat split |]; reflexivity. Qed.



(** C5 on 120 commands: [batch] is the three rounds on chunks of 49, 49 and
    22 request-ids, and with a server that answers each of them, three
    requests go out. *)
Lemma batch_120_three_chunks_witness :
  let cmd := commands 120 "user.get" in
  let ids := sorted (keys cmd) in
  let post :=
    scripted_post [Response "chunk-1"; Response "chunk-2"; Response "chunk-1"]
  in
  batch plain_urlencode (table_loads demo_table) post 0 demo_state
        [("halt", VInt 0); ("cmd", VDict cmd)]
    = finish (run_chunks plain_urlencode (table_loads demo_table) post 0
                (VInt 0)
                [chunk_of cmd (firstn 49 ids);
                 chunk_of cmd (firstn 49 (skipn 49 ids));
                 chunk_of cmd (skipn 98 ids)]
                empty_acc demo_state) /\
  length (chunk_of cmd (firstn 49 ids)) = 49 /\
  length (chunk_of cmd (firstn 49 (skipn 49 ids))) = 49 /\
  length (chunk_of cmd (skipn 98 ids)) = 22 /\
  length (posts (trace (snd (batch plain_urlencode (table_loads demo_table)
                               post 0 demo_state
                               [("halt", VInt 0); ("cmd", VDict cmd)])))) = 3.
Proof.
  intros cmd ids post.
  assert (Hwf : dict_wf cmd)
    by (apply distinct_NoDup; vm_compute; reflexivity).
  assert (Hlen : length cmd = 120) by (vm_compute; reflexivity).
  destruct (batch_120_three_chunks plain_urlencode (table_loads demo_table)
              post 0 demo_state [("halt", VInt 0); ("cmd", VDict cmd)] cmd
              (VInt 0) eq_refl eq_refl Hwf Hlen)
    as (Hrun & H1 & H2 & H3 & _).
  split; [exact Hrun | split; [exact H1 | split; [exact H2 | split; [exact H3 |]]]].
  vm_compute. reflexivity.
Defined.

(** No response of the table holds a mapping with a repeated key. *)
Lemma demo_table_wf :
  forall text v, table_loads demo_table text = Some v -> wf_response v.
Proof.
  intros text v H. unfold table_loads, demo_table in H. cbn [lookup] in H.
  repeat match type of H with
         | (if ?b then _ else _) = _ =>
             destruct b;
             [ injection H as <-; intros tr i x Hg Hx;
               cbv in Hg; try discriminate; injection Hg as <-;
               cbn [getitem lookup] in Hx;
               repeat match type of Hx with
                      | context [String.eqb i ?s] =>
                          destruct (String.eqb i s);
                          [ inversion Hx; subst;
                            apply distinct_NoDup; reflexivity
                          | ]
                      end;
               discriminate
             | ]
         end.
  discriminate.
Defined.

(** C1 on a response that holds [k] and [j] under [result], merged into an
    accumulator that holds [k] already: [k] keeps the stored value, [j] is
    added.  And in a batch of 50 commands that starts from this
    accumulator, [k] still has that value in the end. *)
Lemma merge_chunk_accumulator_wins_witness :
  (exists acc',
      merge_chunk
        (VDict [("result",
                 VDict [("result", VDict [("k", VInt 2); ("j", VInt 3)]);
                        ("result_error", VDict [("a", VStr "bad")]);
                        ("result_total", VList []);
                        ("result_next", VList [])])])
        [("result_error", []); ("result_total", []);
         ("result", [("k", VInt 1)]); ("result_next", [])]
      = Ret acc' /\
      lookup "result" acc' = Some [("k", VInt 1); ("j", VInt 3)]) /\
  (exists acc' y',
      fst (batch_loop plain_urlencode (table_loads demo_table)
             (scripted_post [Response "chunk-2"; Response "chunk-2"])
             0 (commands 50 "user.get") (VInt 0)
             (sorted (keys (commands 50 "user.get"))) 0 []
             [("result_error", []); ("result_total", []);
              ("result", [("k", VInt 1)]); ("result_next", [])]
             demo_state)
      = Ret acc' /\
      lookup "result" acc' = Some y' /\ lookup "k" y' = Some (VInt 1)).
Proof.
  split.
  - destruct (proj1 (merge_chunk_accumulator_wins plain_urlencode
                       (table_loads demo_table) (scripted_post []))
                (VDict [("result",
                         VDict [("result",
                                 VDict [("k", VInt 2); ("j", VInt 3)]);
                                ("result_error", VDict [("a", VStr "bad")]);
                                ("result_total", VList []);
                                ("result_next", VList [])])])
                [("result", VDict [("k", VInt 2); ("j", VInt 3)]);
                 ("result_error", VDict [("a", VStr "bad")]);
                 ("result_total", VList []);
                 ("result_next", VList [])]
                [("result_error", []); ("result_total", []);
                 ("result", [("k", VInt 1)]); ("result_next", [])]
                eq_refl
                (distinct_NoDup
                   ["result"; "result_error"; "result_total"; "result_next"]
                   eq_refl))
      as (acc' & Hrun & Hmerge & _).
    + repeat constructor.
    + destruct (Hmerge "result" [("k", VInt 2); ("j", VInt 3)]
                  [("k", VInt 1)] eq_refl) as (_ & Hl & _).
      * discriminate.
      * reflexivity.
      * exact (distinct_NoDup ["k"] eq_refl).
      * exists acc'. exact (conj Hrun Hl).
  - destruct (batch_loop plain_urlencode (table_loads demo_table)
                (scripted_post [Response "chunk-2"; Response "chunk-2"])
                0 (commands 50 "user.get") (VInt 0)
                (sorted (keys (commands 50 "user.get"))) 0 []
                [("result_error", []); ("result_total", []);
                 ("result", [("k", VInt 1)]); ("result_next", [])]
                demo_state) as [r st'] eqn:Hb.
    assert (Hr : exists acc', r = Ret acc').
    { assert (E := f_equal fst Hb). vm_compute in E.
      eexists. symmetry. exact E. }
    destruct Hr as (acc' & ->).
    assert (Hacc : acc_wf [("result_error", []); ("result_total", []);
                           ("result", [("k", VInt 1)]); ("result_next", [])]).
    { intros i y Hi. cbn [lookup] in Hi.
      repeat match type of Hi with
             | (if ?b then _ else _) = _ =>
                 destruct b;
                 [injection Hi as <-; apply distinct_NoDup; reflexivity |]
             end.
      discriminate. }
    destruct (proj2 (merge_chunk_accumulator_wins plain_urlencode
                       (table_loads demo_table)
                       (scripted_post [Response "chunk-2"; Response "chunk-2"]))
                _ _ _ _ _ _ _ _ _ _ demo_table_wf Hacc Hb
                "result" [("k", VInt 1)] "k" (VInt 1) eq_refl eq_refl)
      as (y' & Hy' & Hk').
    exists acc', y'. exact (conj eq_refl (conj Hy' Hk')).
Defined.

(** C1 as it was stated fails.  A batch of 50 commands goes out in two
    chunks; the first response holds [k = 1] under [result], the second
    [k = 2] and [j = 3].  In the mapping that [batch] returns, [k] has the
    value of the first chunk: the later chunk has not overwritten it. *)
Lemma batch_keeps_earlier_value :
  fst (batch plain_urlencode (table_loads demo_table)
         (scripted_post [Response "chunk-1"; Response "chunk-2"])
         0 demo_state
         [("halt", VInt 0); ("cmd", VDict (commands 50 "user.get"))])
  = Ret (VDict
           [("result",
             VDict [("result_error", VDict [("a", VStr "bad")]);
                    ("result_total", VDict []);
                    ("result", VDict [("k", VInt 1); ("j", VInt 3)]);
                    ("result_next", VDict [])])]).
Proof. vm_compute. reflexivity. Qed.

(** C2 as it was stated fails.  A batch of one command whose response
    holds an entry under [result_error]: the mapping that [batch] returns
    holds that entry under [result_error], which is not empty. *)
Lemma batch_propagates_result_error :
  fst (batch plain_urlencode (table_loads demo_table)
         (scripted_post [Response "chunk-2"])
         0 demo_state
         [("halt", VInt 0); ("cmd", VDict (commands 1 "user.get"))])
  = Ret (VDict
           [("result",
             VDict [("result_error", VDict [("a", VStr "bad")]);
                    ("result_total", VDict []);
                    ("result", VDict [("k", VInt 2); ("j", VInt 3)]);
                    ("result_next", VDict [])])]).
Proof. vm_compute. reflexivity. Qed.

(** C2: the response above is merged under [result_error] as it is under
    [result]; and in a run of 50 commands whose two chunk responses hold
    nothing under [result_error], that entry is empty in what [batch]
    returns, although the server has a response that would fill it. *)
Lemma batch_side_maps_witness :
  (exists acc',
      merge_chunk
        (VDict [("result",
                 VDict [("result", VDict [("k", VInt 2); ("j", VInt 3)]);
                        ("result_error", VDict [("a", VStr "bad")]);
                        ("result_total", VList []);
                        ("result_next", VList [])])])
        empty_acc
      = Ret acc' /\
      lookup "result_error" acc' = Some [("a", VStr "bad")]) /\
  (exists acc,
      fst (batch plain_urlencode (table_loads demo_table)
             (scripted_post [Response "chunk-1"; Response "chunk-1"])
             0 demo_state
             [("halt", VInt 0); ("cmd", VDict (commands 50 "user.get"))])
      = Ret (wrap_acc acc) /\
      lookup "result_error" acc = Some []).
Proof.
  split.
  - destruct (batch_side_maps plain_urlencode (table_loads demo_table)
                (scripted_post []) "result_error" (or_introl eq_refl))
      as [Hmerge _].
    apply (Hmerge _
             [("result", VDict [("k", VInt 2); ("j", VInt 3)]);
              ("result_error", VDict [("a", VStr "bad")]);
              ("result_total", VList []);
              ("result_next", VList [])]
             empty_acc [("a", VStr "bad")] []).
    + reflexivity.
    + exact (distinct_NoDup
               ["result"; "result_error"; "result_total"; "result_next"]
               eq_refl).
    + repeat constructor.
    + reflexivity.
    + discriminate.
    + reflexivity.
  - destruct (batch_side_maps plain_urlencode (table_loads demo_table)
                (scripted_post [Response "chunk-1"; Response "chunk-1"])
                "result_error" (or_introl eq_refl))
      as [_ Hframe].
    destruct (batch plain_urlencode (table_loads demo_table)
                (scripted_post [Response "chunk-1"; Response "chunk-1"])
                0 demo_state
                [("halt", VInt 0); ("cmd", VDict (commands 50 "user.get"))])
      as [r st'] eqn:Hb.
    assert (Hr : exists v, r = Ret v).
    { assert (E := f_equal fst Hb). vm_compute in E.
      eexists. symmetry. exact E. }
    destruct Hr as (v & ->).
    assert (Hwf : dict_wf (commands 50 "user.get"))
      by (apply distinct_NoDup; vm_compute; reflexivity).
    assert (Hq : Forall (quiet "result_error")
                   (responses plain_urlencode (table_loads demo_table)
                      (scripted_post [Response "chunk-1"; Response "chunk-1"])
                      0 (VInt 0) (chunks (commands 50 "user.get"))
                      empty_acc demo_state)).
    { set (l := responses _ _ _ _ _ _ _ _). vm_compute in l. subst l.
      repeat constructor; intros tr x Hg Hx;
        cbv in Hg; injection Hg as <-;
        cbv in Hx; injection Hx as <-; reflexivity. }
    destruct (Hframe 0 demo_state
                [("halt", VInt 0); ("cmd", VDict (commands 50 "user.get"))]
                (commands 50 "user.get") (VInt 0) v st'
                eq_refl eq_refl Hwf Hq Hb)
      as (acc & Hv & Hl).
    exists acc. simpl. rewrite Hv. exact (conj eq_refl Hl).
Defined.

(** ** The further properties on concrete inputs *)

Lemma call_params1_untouched_witness :
  snd (call plain_urlencode (table_loads demo_table)
         (scripted_post [Response "expired"; Response "tokens";
                         Response "done"])
         1 demo_state (VStr "user.get") (Some [("ID", VInt 1)])
         None None None)
  = Some [("ID", VInt 1)].
Proof.
  apply call_params1_untouched. discriminate.
Defined.

Lemma call_hides_retried_errors_witness :
  error_in (VDict [("result", VBool true)])
           ["NO_AUTH_FOUND"; "expired_token"; "QUERY_LIMIT_EXCEEDED"]
    = Ret false.
Proof.
  eapply (call_hides_retried_errors plain_urlencode (table_loads more_table)
            (scripted_post [Response "limit"; Response "done"])
            1 demo_state (VStr "user.get") (Some [("ID", VInt 1)])
            None None None).
  reflexivity.
Defined.

Lemma call_transport_failures_witness :
  call plain_urlencode (table_loads demo_table)
    (scripted_post [Fails ReadTimeout])
    0 demo_state (VStr "user.get") (Some [("ID", VInt 1)]) None None None
  = (Ret (VDict [("error", VStr "Timeout waiting expired [60 sec]")]),
     State demo_client
       [Sent (PostData "https://portal.example/rest/user.get.json"
                "ID=1&auth=old-access&" 60)],
     Some [("ID", VInt 1)]).
Proof.
  assert (Hm : "user.get" <> "") by discriminate.
  exact (proj1 (call_transport_failures plain_urlencode
                  (table_loads demo_table) (scripted_post [Fails ReadTimeout])
                  0 demo_state "user.get" (Some [("ID", VInt 1)])
                  None None None (Some [("ID", VInt 1)])
                  "ID=1&auth=old-access&" Hm eq_refl eq_refl) eq_refl).
Defined.

Lemma call_rate_limit_retry_witness :
  exists st3,
    call plain_urlencode (table_loads more_table)
      (scripted_post [Response "limit"; Response "done"])
      1 demo_state (VStr "user.get") (Some [("ID", VInt 1)]) None None None
    = (Ret (VDict [("result", VBool true)]), st3, Some [("ID", VInt 1)]) /\
    trace st3
      = [Sent (PostData "https://portal.example/rest/user.get.json"
                 "ID=1&auth=old-access&" 60);
         Printed "SLEEP =)"; Slept 2;
         Sent (PostData "https://portal.example/rest/user.get.json"
                 "ID=1&auth=old-access&" 60)].
Proof.
  assert (Hm : "user.get" <> "") by discriminate.
  destruct (call_rate_limit_retry plain_urlencode (table_loads more_table)
              (scripted_post [Response "limit"; Response "done"])
              0 demo_state "user.get" (Some [("ID", VInt 1)]) None None None
              (Some [("ID", VInt 1)]) "ID=1&auth=old-access&"
              (VDict [("error", VStr "QUERY_LIMIT_EXCEEDED")])
              Hm eq_refl eq_refl eq_refl eq_refl eq_refl)
    as (_ & _ & Hfinal).
  destruct (Hfinal (VDict [("result", VBool true)]) eq_refl eq_refl eq_refl)
    as (st3 & Hcall & _ & Ht).
  exists st3. exact (conj Hcall Ht).
Defined.

Lemma call_rate_limit_forever_witness :
  fst (fst (call plain_urlencode (table_loads more_table)
              (constant_post (Response "limit"))
              3 demo_state (VStr "user.get") (Some [("ID", VInt 1)])
              None None None)) = Diverge /\
  length (posts (trace (snd (fst
            (call plain_urlencode (table_loads more_table)
               (constant_post (Response "limit"))
               3 demo_state (VStr "user.get") (Some [("ID", VInt 1)])
               None None None))))) = 4.
Proof.
  assert (Hm : "user.get" <> "") by discriminate.
  exact (call_rate_limit_forever plain_urlencode (table_loads more_table)
           (constant_post (Response "limit"))
           "user.get" None None None (Some [("ID", VInt 1)]) demo_client
           "ID=1&auth=old-access&"
           (VDict [("error", VStr "QUERY_LIMIT_EXCEEDED")])
           Hm eq_refl (fun _ => eq_refl) eq_refl eq_refl
           3 demo_state (Some [("ID", VInt 1)]) eq_refl eq_refl).
Defined.

Lemma call_cmd_without_halt_witness :
  call plain_urlencode (table_loads demo_table) (scripted_post [])
    0 demo_state (VStr "batch")
    (Some [("cmd", VDict [("a", VList [VStr "user.get"])])]) None None None
  = (Raise (KeyError (VStr "halt")), demo_state,
     Some [("cmd", VDict [("a", VStr "user.get?")]);
           ("prepared", VBool true)]).
Proof.
  assert (Hm : "batch" <> "") by discriminate.
  exact (proj1 (call_cmd_without_halt plain_urlencode (table_loads demo_table)
           (scripted_post []) 0 demo_state "batch"
           (Some [("cmd", VDict [("a", VList [VStr "user.get"])])])
           None None None
           [("cmd", VDict [("a", VStr "user.get?")]); ("prepared", VBool true)]
           (VDict [("a", VStr "user.get?")])
           Hm eq_refl eq_refl eq_refl) "cmd[a]=user.get?&" eq_refl).
Defined.

Lemma refresh_tokens_stores_tokens_witness :
  exists st',
    refresh_tokens (table_loads demo_table)
      (scripted_post [Response "tokens"]) demo_state
    = (Ret (VBool true), st') /\
    get_tokens (self st')
      = VDict [("auth_token", VStr "new-access");
               ("refresh_token", VStr "new-refresh")].
Proof.
  destruct (refresh_tokens_stores_tokens (table_loads demo_table)
              (scripted_post [Response "tokens"]) demo_state "tokens"
              [("access_token", VStr "new-access");
               ("refresh_token", VStr "new-refresh")]
              (VStr "new-access") (VStr "new-refresh")
              eq_refl eq_refl eq_refl eq_refl)
    as (st' & Hr & Hg & _).
  exists st'. exact (conj Hr Hg).
Defined.

Lemma refresh_tokens_failure_keeps_tokens_witness :
  exists st',
    refresh_tokens (table_loads demo_table)
      (scripted_post [Response "<html>"]) demo_state
    = (Ret (VDict [("error",
                    VStr "Error on decode oauth response [<html>]")]), st') /\
    get_tokens (self st')
      = VDict [("auth_token", VStr "old-access");
               ("refresh_token", VStr "old-refresh")].
Proof.
  destruct (refresh_tokens_failure_keeps_tokens (table_loads demo_table)
              (scripted_post [Response "<html>"]) demo_state "<html>"
              eq_refl (or_introl eq_refl))
    as (st' & Hr & Hg & _).
  exists st'. exact (conj Hr Hg).
Defined.

Lemma call_refresh_failure_escapes_witness :
  fst (fst (call plain_urlencode (table_loads demo_table)
              (scripted_post [Response "expired"; Fails ConnectionError])
              1 demo_state (VStr "user.get") (Some [("ID", VInt 1)])
              None None None))
  = Raise ConnectionError.
Proof.
  assert (Hm : "user.get" <> "") by discriminate.
  rewrite (call_refresh_failure_escapes plain_urlencode
             (table_loads demo_table)
             (scripted_post [Response "expired"; Fails ConnectionError])
             1 demo_state "user.get" (Some [("ID", VInt 1)]) None None None
             (Some [("ID", VInt 1)]) "ID=1&auth=old-access&"
             (VDict [("error", VStr "expired_token")]) ConnectionError
             Hm eq_refl eq_refl eq_refl eq_refl (or_intror eq_refl) eq_refl).
  reflexivity.
Defined.

Lemma call_transport_value_error_witness :
  call plain_urlencode (table_loads demo_table)
    (scripted_post [Fails ValueError])
    0 demo_state (VStr "user.get") (Some [("ID", VInt 1)]) None None None
  = (Raise AttributeError,
     State demo_client
       [Sent (PostData "https://portal.example/rest/user.get.json"
                "ID=1&auth=old-access&" 60)],
     Some [("ID", VInt 1)]).
Proof.
  assert (Hm : "user.get" <> "") by discriminate.
  exact (call_transport_value_error plain_urlencode (table_loads demo_table)
           (scripted_post [Fails ValueError])
           0 demo_state "user.get" (Some [("ID", VInt 1)]) None None None
           (Some [("ID", VInt 1)]) "ID=1&auth=old-access&"
           Hm eq_refl eq_refl eq_refl).
Defined.

Lemma prepare_call_marks_witness :
  exists b p',
    snd (prepare_batch plain_urlencode
           (VDict [("b", VList [VStr "crm.lead.list";
                                VDict [("start", VInt 50)]]);
                   ("a", VList [VStr "user.get"])])) = Ret b /\
    prepare_call plain_urlencode "batch"
      (Some [("halt", VInt 0);
             ("cmd",
              VDict [("b", VList [VStr "crm.lead.list";
                                  VDict [("start", VInt 50)]]);
                     ("a", VList [VStr "user.get"])])])
      = (Some p', Ret tt) /\
    lookup "cmd" p' = Some (VDict b) /\
    lookup "prepared" p' = Some (VBool true) /\
    lookup "halt" p' = Some (VInt 0) /\
    prepare_call plain_urlencode "batch" (Some p') = (Some p', Ret tt).
Proof.
  destruct (prepare_call_marks plain_urlencode
              [("halt", VInt 0);
               ("cmd",
                VDict [("b", VList [VStr "crm.lead.list";
                                    VDict [("start", VInt 50)]]);
                       ("a", VList [VStr "user.get"])])]
              [("b", VList [VStr "crm.lead.list"; VDict [("start", VInt 50)]]);
               ("a", VList [VStr "user.get"])]
              eq_refl eq_refl
              (distinct_NoDup ["b"; "a"] eq_refl)
              demo_commands_accepted)
    as (b & p' & Hb & Hp & Hc & Hm & Ho & Hi).
  exists b, p'.
  split; [exact Hb | split; [exact Hp | split; [exact Hc | split; [exact Hm | split; [| exact Hi]]]]].
  rewrite Ho by discriminate. reflexivity.
Defined.

Lemma prepare_batch_not_twice_witness :
  snd (prepare_batch plain_urlencode
         (VDict [("a", VStr "user.get?");
                 ("b", VStr "crm.lead.list?start=50&")]))
  = Raise (Exception "Invalid 'cmd' method description").
Proof.
  apply (prepare_batch_not_twice plain_urlencode
           [("b", VList [VStr "crm.lead.list"; VDict [("start", VInt 50)]]);
            ("a", VList [VStr "user.get"])]
           [("a", VStr "user.get?"); ("b", VStr "crm.lead.list?start=50&")]
           (distinct_NoDup ["b"; "a"] eq_refl)).
  - discriminate.
  - exact demo_commands_accepted.
  - reflexivity.
Defined.

(** The reference encoder accepts mappings only. *)
Lemma plain_urlencode_mappings :
  forall v s, plain_urlencode v = Ret s -> exists x, v = VDict x.
Proof.
  intros v s H. destruct v; try discriminate. eexists. reflexivity.
Defined.

Lemma prepare_batch_rerun_raises_witness :
  prepare_batch plain_urlencode
    (VDict [("b", VList [VDict [("start", VInt 50)]]); ("a", VList [])])
  = (VDict [("b", VList [VDict [("start", VInt 50)]]); ("a", VList [])],
     Raise IndexError) /\
  prepare_batch plain_urlencode
    (VDict [("b", VList [VDict [("start", VInt 50)]])])
  = (VDict [("b", VList [])], Raise TypeError).
Proof.
  split.
  - apply (proj1 (proj2 (prepare_batch_rerun_raises plain_urlencode
             [("b", VList [VStr "crm.lead.list"; VDict [("start", VInt 50)]]);
              ("a", VList [VStr "user.get"])]
             [("b", VList [VDict [("start", VInt 50)]]); ("a", VList [])]
             "a" (VStr "user.get") []
             plain_urlencode_mappings
             (distinct_NoDup ["b"; "a"] eq_refl)
             demo_commands_accepted eq_refl eq_refl eq_refl))).
    reflexivity.
  - assert (Hok : forall k v,
               In (k, v)
                  [("b", VList [VStr "crm.lead.list";
                                VDict [("start", VInt 50)]])] ->
               exists s, prepares plain_urlencode v s).
    { intros k v Hin. apply (demo_commands_accepted k v). left.
      destruct Hin as [H | []]. exact H. }
    apply (proj2 (proj2 (prepare_batch_rerun_raises plain_urlencode
             [("b", VList [VStr "crm.lead.list"; VDict [("start", VInt 50)]])]
             [("b", VList [VDict [("start", VInt 50)]])]
             "b" (VStr "crm.lead.list") [VDict [("start", VInt 50)]]
             plain_urlencode_mappings
             (distinct_NoDup ["b"] eq_refl)
             Hok eq_refl eq_refl eq_refl))
             (VDict [("start", VInt 50)]) []).
    reflexivity.
Defined.

Lemma merge_two_dicts_right_wins_witness :
  merge_two_dicts (VDict [("x", VInt 1)]) [("x", VInt 2); ("y", VInt 3)]
    = Ret [("x", VInt 2); ("y", VInt 3)].
Proof.
  exact (proj1 (merge_two_dicts_right_wins
                  [("x", VInt 1)] [("x", VInt 2); ("y", VInt 3)]
                  (distinct_NoDup ["x"; "y"] eq_refl))).
Defined.

Lemma merge_chunk_faults_witness :
  merge_chunk
    (VDict [("result",
             VDict [("result", VDict [("k", VInt 1)]);
                    ("result_time", VDict [("k", VInt 7)])])])
    empty_acc
  = Raise (KeyError (VStr "result_time")).
Proof.
  apply (proj1 (merge_chunk_faults
                  (VDict [("result",
                           VDict [("result", VDict [("k", VInt 1)]);
                                  ("result_time", VDict [("k", VInt 7)])])])
                  [("result", VDict [("k", VInt 1)])] []
                  "result_time" (VDict [("k", VInt 7)]) empty_acc
                  eq_refl
                  (distinct_NoDup ["result"; "result_time"] eq_refl)
                  ltac:(repeat constructor))).
  - eexists. eexists. reflexivity.
  - reflexivity.
Defined.

Lemma batch_invalid_structure_witness :
  batch plain_urlencode (table_loads demo_table) (scripted_post [])
    0 demo_state [("cmd", VDict (commands 2 "user.get"))]
  = (Ret (VDict [("error", VStr "Invalid batch structure")]), demo_state).
Proof.
  apply (proj1 (batch_invalid_structure plain_urlencode
                  (table_loads demo_table) (scripted_post []) 0 demo_state
                  [("cmd", VDict (commands 2 "user.get"))])).
  left. reflexivity.
Defined.

Lemma batch_chunking_witness :
  map (@length (string * value)) (chunks (commands 100 "user.get"))
    = [49; 49; 2] /\
  concat (map keys (chunks (commands 100 "user.get")))
    = sorted (keys (commands 100 "user.get")).
Proof.
  split; [vm_compute; reflexivity |].
  assert (Hwf : dict_wf (commands 100 "user.get"))
    by (apply distinct_NoDup; vm_compute; reflexivity).
  exact (proj1 (proj2 (batch_chunking plain_urlencode (table_loads demo_table)
                         (scripted_post []) 0 demo_state
                         [("halt", VInt 0);
                          ("cmd", VDict (commands 100 "user.get"))]
                         (commands 100 "user.get") (VInt 0)
                         eq_refl eq_refl Hwf))).
Defined.

Lemma batch_result_shape_witness :
  exists e t x n,
    fst (batch plain_urlencode (table_loads demo_table)
           (scripted_post [Response "chunk-2"])
           0 demo_state
           [("halt", VInt 0); ("cmd", VDict (commands 1 "user.get"))])
    = Ret (VDict [("result",
                   VDict [("result_error", VDict e);
                          ("result_total", VDict t);
                          ("result", VDict x);
                          ("result_next", VDict n)])]).
Proof.
  destruct (batch plain_urlencode (table_loads demo_table)
              (scripted_post [Response "chunk-2"])
              0 demo_state
              [("halt", VInt 0); ("cmd", VDict (commands 1 "user.get"))])
    as [r st'] eqn:Hb.
  assert (Hr : exists v, r = Ret v).
  { assert (E := f_equal fst Hb). vm_compute in E.
    eexists. symmetry. exact E. }
  destruct Hr as (v & ->).
  destruct (batch_result_shape plain_urlencode (table_loads demo_table)
              (scripted_post [Response "chunk-2"])
              0 demo_state st'
              [("halt", VInt 0); ("cmd", VDict (commands 1 "user.get"))]
              (VDict (commands 1 "user.get")) (VInt 0) v
              eq_refl eq_refl Hb)
    as (e & t & x & n & ->).
  exists e, t, x, n. reflexivity.
Defined.

Lemma batch_without_result_witness :
  fst (batch plain_urlencode (table_loads demo_table)
         (scripted_post [Fails ReadTimeout])
         0 demo_state
         [("halt", VInt 0); ("cmd", VDict (commands 60 "user.get"))])
  = Raise (KeyError (VStr "result")).
Proof.
  assert (Hwf : dict_wf (commands 60 "user.get"))
    by (apply distinct_NoDup; vm_compute; reflexivity).
  destruct (call plain_urlencode (table_loads demo_table)
              (scripted_post [Fails ReadTimeout]) 0 demo_state (VStr "batch")
              (Some [("halt", VInt 0);
                     ("cmd",
                      VDict (chunk_of (commands 60 "user.get")
                               (firstn 49
                                  (sorted (keys (commands 60 "user.get"))))))])
              None None None)
    as [[r st1] p] eqn:Hcall.
  assert (Hr : r = Ret (VDict [("error",
                                VStr "Timeout waiting expired [60 sec]")])).
  { assert (E := f_equal (fun x => fst (fst x)) Hcall). vm_compute in E.
    symmetry. exact E. }
  subst r.
  rewrite (batch_without_result plain_urlencode (table_loads demo_table)
             (scripted_post [Fails ReadTimeout]) 0 demo_state st1
             [("halt", VInt 0); ("cmd", VDict (commands 60 "user.get"))]
             (commands 60 "user.get")
             [("error", VStr "Timeout waiting expired [60 sec]")]
             (VInt 0) p eq_refl eq_refl Hwf ltac:(discriminate) Hcall eq_refl).
  reflexivity.
Defined.

Lemma call_batch_body_witness :
  exists rest,
    trace (snd (fst
      (call plain_urlencode (table_loads demo_table)
         (scripted_post [Response "chunk-1"])
         0 demo_state (VStr "batch")
         (Some [("halt", VInt 0);
                ("cmd",
                 VDict [("b", VList [VStr "crm.lead.list";
                                     VDict [("start", VInt 50)]]);
                        ("a", VList [VStr "user.get"])])])
         None None None)))
    = Sent (PostData "https://portal.example/rest/batch.json"
              "cmd[a]=user.get?&cmd[b]=crm.lead.list?start=50&&&halt=0&auth=old-access&"
              60)
      :: rest.
Proof.
  apply (call_batch_body plain_urlencode (table_loads demo_table)
           (scripted_post [Response "chunk-1"]) 0 demo_state
           [("halt", VInt 0);
            ("cmd",
             VDict [("b", VList [VStr "crm.lead.list";
                                 VDict [("start", VInt 50)]]);
                    ("a", VList [VStr "user.get"])])]
           [("b", VList [VStr "crm.lead.list"; VDict [("start", VInt 50)]]);
            ("a", VList [VStr "user.get"])]
           [("a", VStr "user.get?"); ("b", VStr "crm.lead.list?start=50&")]
           (VInt 0)
           "cmd[a]=user.get?&cmd[b]=crm.lead.list?start=50&&"
           "halt=0" "auth=old-access&"
           eq_refl eq_refl eq_refl eq_refl eq_refl eq_refl eq_refl).
Defined.

